(** * reflex: the event log, the cursor store and the instrumented consumer

    A shallow embedding of [rsql/db.go] (package [rsql]: the SQL accessors of
    the events table and of the cursors table, and the MySQL error
    classifiers) and of the consumer wrapper of package [reflex]
    ([NewConsumer], its options and [Consume]).

    Go values are modelled as follows.
    - [error] is an inductive type of error values; a Go [error] interface
      value, which may be [nil], is an [option error].
    - [int64], [int] and [uint16] values are [Z]; the code only compares
      them, so no wrap-around arises.
    - [time.Time] is a [Z] counting nanoseconds since the epoch and
      [time.Duration] a [Z] counting nanoseconds.  The [float64] values that
      reach the metric sinks are binary64 floats, computed as Go computes
      them; the seconds handed to the store as the argument of an SQL
      interval are read there as the exact rational [Q].
    - A call that panics has the outcome [Panics]; one that returns has the
      outcome [Returns] of its result.
    - [[]byte] is an [option (list byte)], [None] being the [nil] slice.
    - The database behind [*sql.DB] is an explicit state [DB]: the rows of
      the two tables, the clock, and an oracle of driver faults that
      is consumed by every call of the driver.  Functions that talk to the
      database are state transformers [DB -> A * DB].  No call moves the
      clock: where time passes between two calls, the later call runs on
      another state.
    - A transaction [*sql.Tx] is a [Tx]: the store as it was when the
      transaction began and as the transaction has left it; the pool reads
      what a transaction wrote once it has committed. *)

From Stdlib Require Import PrimFloat.
From Stdlib Require Uint63.
From Stdlib Require Import QArith Ascii String.
From stdpp Require Import base option list functions sorting strings pretty.
From Stdlib Require Import ZArith Lia.

Local Open Scope string_scope.
Local Open Scope list_scope.
Local Open Scope Z_scope.

(** ** Errors (github.com/luno/jettison/errors, database/sql, go-sql-driver) *)

Module errors.

(** A key/value option of jettison, [j.KS key value]. *)
Definition Option : Type := string * string.
Definition KS (key value : string) : Option := (key, value).

Inductive error : Type :=
| MySQLError (Number : Z) (Message : string)
    (* a non-nil *mysql.MySQLError; Number is a uint16 *)
| NilMySQLError
    (* a non-nil error interface that holds a nil *mysql.MySQLError *)
| ErrNoRows
    (* the sentinel sql.ErrNoRows *)
| ErrDriver (msg : string)
    (* any other error of the driver, the network or the context *)
| ErrNew (msg : string) (ol : list Option)
    (* errors.New(msg, ol...) *)
| ErrWrap (cause : error) (msg : string) (ol : list Option).
    (* errors.Wrap(cause, msg, ol...) of a non-nil cause *)

Definition New (msg : string) (ol : list Option) : option error :=
  Some (ErrNew msg ol).

(** [errors.Wrap] returns [nil] when the wrapped error is [nil]. *)
Definition Wrap (err : option error) (msg : string) (ol : list Option)
  : option error :=
  match err with
  | None => None
  | Some e => Some (ErrWrap e msg ol)
  end.

(** [errors.As(err, &me)] with [me] a [*mysql.MySQLError]: [None] when no
    error of the chain of causes is a [*mysql.MySQLError] ([As] returns
    false); otherwise the pointer that the first one of the chain holds, as
    [As] stores it in [me]: [Some None] for a nil pointer, [Some (Some _)]
    for the number and the message of the error it points to. *)
Fixpoint As_MySQLError (e : error) : option (option (Z * string)) :=
  match e with
  | MySQLError n m => Some (Some (n, m))
  | NilMySQLError => Some None
  | ErrWrap cause _ _ => As_MySQLError cause
  | ErrNoRows | ErrDriver _ | ErrNew _ _ => None
  end.

(** [errors.Is(err, sql.ErrNoRows)]. *)
Fixpoint Is_ErrNoRows (e : error) : bool :=
  match e with
  | ErrNoRows => true
  | ErrWrap cause _ _ => Is_ErrNoRows cause
  | MySQLError _ _ | NilMySQLError | ErrDriver _ | ErrNew _ _ => false
  end.

(** How a call ends: it returns a result, or it panics. *)
Inductive outcome (A : Type) : Type :=
| Returns (a : A)
| Panics.
Arguments Returns {A} a.
Arguments Panics {A}.

End errors.
Export errors.

(** ** Package reflex: events and the instrumented consumer *)

Module reflex.

(** [time.Time] and [time.Duration], both in nanoseconds. *)
Definition Time : Type := Z.
Definition Duration : Type := Z.

Definition Nanosecond : Duration := 1.
Definition Second : Duration := 1000000000 * Nanosecond.
Definition Minute : Duration := 60 * Second.
Definition Hour : Duration := 60 * Minute.

Definition minDuration : Duration := - 2 ^ 63.
Definition maxDuration : Duration := 2 ^ 63 - 1.

(** [t.Sub(u)]: the duration [t - u], saturated to the range of an int64. *)
Definition Sub (t u : Time) : Duration :=
  let d := t - u in
  if d <? minDuration then minDuration
  else if d >? maxDuration then maxDuration
  else d.

(** [d.Seconds()] as the store reads it: the argument of an SQL interval is
    taken there as a decimal number of seconds, the exact rational. *)
Definition Seconds (d : Duration) : Q := Qmake d 1000000000.

(** [float64(n)] for an int64 [n] above [minDuration], as the seconds and
    the nanoseconds of a duration are: the nearest binary64 float. *)
Definition float64_of_int64 (n : Z) : PrimFloat.float :=
  if n <? 0
  then PrimFloat.opp (PrimFloat.of_uint63 (Uint63.of_Z (- n)))
  else PrimFloat.of_uint63 (Uint63.of_Z n).

(** [d.Seconds()] as Go computes it, the float64 that reaches a metric sink:
    [sec := d / Second; nsec := d % Second;
     return float64(sec) + float64(nsec)/1e9], the division and the
    remainder of integers truncating towards zero. *)
Definition Seconds_float64 (d : Duration) : PrimFloat.float :=
  PrimFloat.add
    (float64_of_int64 (Z.quot d Second))
    (PrimFloat.div (float64_of_int64 (Z.rem d Second)) 1000000000%float).

(** Modelled from the spec: the [EventType] interface, declared outside
    db.go; a value that reports an integer event-kind code by its method
    [ReflexType() int]. *)
Class EventType (T : Type) := ReflexType : T -> Z.

(** Modelled from the spec: the [Event] struct, declared outside db.go, with
    the fields that [scan] fills; [Type_] holds the integer code of the
    event type. *)
Record Event : Type := mkEvent {
  ID : string;
  Type_ : Z;
  ForeignID : string;
  Timestamp : Time;
  MetaData : option (list Byte.byte)
}.

(** *** Metric sinks

    Modelled from the spec: the metric vectors [consumerLag],
    [consumerLagAlert], [consumerErrors] and [consumerLatency], declared
    outside the sources at hand, give one sink per consumer name.  The
    prometheus objects are shared and mutable: a consumer holds handles on
    them, and the values live in a store. *)

Inductive Gauge : Type :=
| consumerLag_With (label : string)
| consumerLagAlert_With (label : string)
| customGauge (ident : string).

Inductive Counter : Type :=
| consumerErrors_With (label : string).

Inductive Observer : Type :=
| consumerLatency_With (label : string).

#[global] Instance Gauge_eq_dec : EqDecision Gauge.
Proof. solve_decision. Defined.
#[global] Instance Counter_eq_dec : EqDecision Counter.
Proof. solve_decision. Defined.
#[global] Instance Observer_eq_dec : EqDecision Observer.
Proof. solve_decision. Defined.

Record metrics : Type := mkMetrics {
  gauges : Gauge -> PrimFloat.float;
  counters : Counter -> Z;
  observations : Observer -> list PrimFloat.float;
  activity_ttl : string -> option Duration;
  activity_last : string -> option Time
}.

Definition Gauge_Set (g : Gauge) (v : PrimFloat.float) (m : metrics)
  : metrics :=
  {| gauges := <[g := v]> (gauges m); counters := counters m;
     observations := observations m;
     activity_ttl := activity_ttl m; activity_last := activity_last m |}.

Definition Counter_Inc (c : Counter) (m : metrics) : metrics :=
  {| gauges := gauges m; counters := <[c := counters m c + 1]> (counters m);
     observations := observations m;
     activity_ttl := activity_ttl m; activity_last := activity_last m |}.

Definition Observe (o : Observer) (v : PrimFloat.float) (m : metrics)
  : metrics :=
  {| gauges := gauges m; counters := counters m;
     observations := <[o := observations m o ++ [v]]> (observations m);
     activity_ttl := activity_ttl m; activity_last := activity_last m |}.

(** Modelled from the spec: the activity gauge, whose source is absent.
    [Register] files a liveness record with its TTL under the consumer's
    identity and returns its key; [SetActive] refreshes that record. *)
Definition Register (label : string) (ttl : Duration) (m : metrics)
  : string * metrics :=
  (label,
   {| gauges := gauges m; counters := counters m;
      observations := observations m;
      activity_ttl := <[label := Some ttl]> (activity_ttl m);
      activity_last := activity_last m |}).

Definition SetActive (key : string) (now : Time) (m : metrics) : metrics :=
  {| gauges := gauges m; counters := counters m;
     observations := observations m;
     activity_ttl := activity_ttl m;
     activity_last := <[key := Some now]> (activity_last m) |}.

(** *** The consumer *)

Definition defaultLagAlert : Duration := 30 * Minute.
Definition defaultActivityTTL : Duration := 24 * Hour.

Section Consumer.

(** The state the handler owns.  A handler runs for some time and may change
    its own state; the context and the fate it receives are part of it.  It
    holds no handle on the consumer's metric sinks.  It returns an error,
    which may be nil, or it panics. *)
Context {S : Type}.

Definition handler : Type :=
  Event -> Time * S -> outcome (option error) * (Time * S).

Record consumer : Type := mkConsumer {
  fn : handler;
  name : string;
  lagAlert : Duration;
  activityTTL : Duration;
  lagGauge : Gauge;
  lagAlertGauge : Gauge;
  errorCounter : Counter;
  latencyHist : Observer;
  activityKey : string
}.

Definition ConsumerOption : Type := consumer -> consumer.

Definition WithConsumerLagAlert (d : Duration) : ConsumerOption :=
  fun c =>
    {| fn := fn c; name := name c; lagAlert := d;
       activityTTL := activityTTL c; lagGauge := lagGauge c;
       lagAlertGauge := lagAlertGauge c; errorCounter := errorCounter c;
       latencyHist := latencyHist c; activityKey := activityKey c |}.

Definition WithoutConsumerLag : ConsumerOption :=
  fun c =>
    {| fn := fn c; name := name c; lagAlert := -1;
       activityTTL := activityTTL c; lagGauge := lagGauge c;
       lagAlertGauge := lagAlertGauge c; errorCounter := errorCounter c;
       latencyHist := latencyHist c; activityKey := activityKey c |}.

Definition WithConsumerLagAlertGauge (g : Gauge) : ConsumerOption :=
  fun c =>
    {| fn := fn c; name := name c; lagAlert := lagAlert c;
       activityTTL := activityTTL c; lagGauge := lagGauge c;
       lagAlertGauge := g; errorCounter := errorCounter c;
       latencyHist := latencyHist c; activityKey := activityKey c |}.

Definition WithConsumerActivityTTL (ttl : Duration) : ConsumerOption :=
  fun c =>
    {| fn := fn c; name := name c; lagAlert := lagAlert c;
       activityTTL := ttl; lagGauge := lagGauge c;
       lagAlertGauge := lagAlertGauge c; errorCounter := errorCounter c;
       latencyHist := latencyHist c; activityKey := activityKey c |}.

Definition WithoutConsumerActivityTTL : ConsumerOption :=
  fun c =>
    {| fn := fn c; name := name c; lagAlert := lagAlert c;
       activityTTL := -1; lagGauge := lagGauge c;
       lagAlertGauge := lagAlertGauge c; errorCounter := errorCounter c;
       latencyHist := latencyHist c; activityKey := activityKey c |}.

(** [for _, o := range opts { o(c) }] *)
Fixpoint apply_options (opts : list ConsumerOption) (c : consumer) : consumer :=
  match opts with
  | [] => c
  | o :: rest => apply_options rest (o c)
  end.

Definition NewConsumer (name0 : string) (fn0 : handler)
    (opts : list ConsumerOption) (m : metrics) : consumer * metrics :=
  let c :=
    {| fn := fn0; name := name0;
       lagAlert := defaultLagAlert; activityTTL := defaultActivityTTL;
       lagGauge := consumerLag_With name0;
       lagAlertGauge := consumerLagAlert_With name0;
       errorCounter := consumerErrors_With name0;
       latencyHist := consumerLatency_With name0;
       activityKey := "" |} in
  let c := apply_options opts c in
  let '(key, m) := Register name0 (activityTTL c) m in
  ({| fn := fn c; name := name c; lagAlert := lagAlert c;
      activityTTL := activityTTL c; lagGauge := lagGauge c;
      lagAlertGauge := lagAlertGauge c; errorCounter := errorCounter c;
      latencyHist := latencyHist c; activityKey := key |}, m).

Definition Name (c : consumer) : string := name c.

(** The world a call of [Consume] runs in: the clock, the metric store and
    the handler's state. *)
Record World : Type := mkWorld {
  now : Time;
  prom : metrics;
  user : S
}.

(** [Consume].  The statements that follow the call of the handler are not
    deferred: when the handler panics, the panic leaves [Consume] before
    they run. *)
Definition Consume (c : consumer) (event : Event) (w : World)
  : outcome (option error) * World :=
  let t0 := now w in
  let m := SetActive (activityKey c) t0 (prom w) in
  let lag := Sub t0 (Timestamp event) in
  let m := Gauge_Set (lagGauge c) (Seconds_float64 lag) m in
  let alert : PrimFloat.float :=
    if (lag >? lagAlert c) && (lagAlert c >? 0) then 1%float else 0%float in
  let m := Gauge_Set (lagAlertGauge c) alert m in
  let '(res, (t1, u)) := fn c event (t0, user w) in
  match res with
  | Panics => (Panics, {| now := t1; prom := m; user := u |})
  | Returns err =>
      let m := match err with
               | Some _ => Counter_Inc (errorCounter c) m
               | None => m
               end in
      let latency := Sub t1 t0 in
      let m := Observe (latencyHist c) (Seconds_float64 latency) m in
      (Returns err, {| now := t1; prom := m; user := u |})
  end.

(** What the wrapped handler does in the world of a call, and the number it
    adds to the error counter; both serve to state the properties below. *)
Definition handled (c : consumer) (event : Event) (w : World)
  : outcome (option error) * (Time * S) :=
  fn c event (now w, user w).

Definition one_if_failed (res : outcome (option error)) : Z :=
  match res with
  | Returns (Some _) => 1
  | Returns None | Panics => 0
  end.

End Consumer.

Arguments consumer : clear implicits.
Arguments handler : clear implicits.
Arguments ConsumerOption : clear implicits.
Arguments World : clear implicits.

End reflex.

(** ** Package rsql: the tables and the driver *)

Module rsql.

Definition defaultEventTimeField : string := "timestamp".
Definition defaultEventTypeField : string := "type".
Definition defaultEventForeignIDField : string := "foreign_id".
Definition defaultMetadataField : string := "". (* disabled *)

(** *** The error classifiers *)

(** [for _, num := range nums { if me.Number == num { return true } }] *)
Fixpoint number_in (n : Z) (nums : list Z) : bool :=
  match nums with
  | [] => false
  | num :: rest => if n =? num then true else number_in n rest
  end.

(** [isMySQLErr].  When [errors.As] has stored a nil pointer in [me], the
    first round of the loop reads [me.Number] and panics; with no number to
    look for the loop does not run. *)
Definition isMySQLErr (err : option error) (nums : list Z) : outcome bool :=
  match err with
  | None => Returns false
  | Some e =>
      match As_MySQLError e with
      | None => Returns false
      | Some None =>
          match nums with
          | [] => Returns false
          | _ :: _ => Panics
          end
      | Some (Some (Number, _)) => Returns (number_in Number nums)
      end
  end.

(** 1142 ER_TABLEACCESS_DENIED_ERROR, 1143 ER_COLUMNACCESS_DENIED_ERROR,
    1370 ER_PROCACCESS_DENIED_ERROR. *)
Definition isMySQLErrNoAccess (err : option error) : outcome bool :=
  isMySQLErr err [1142; 1143; 1370].

(** 1290 ER_OPTION_PREVENTS_STATEMENT. *)
Definition isMySQLErrReadOnly (err : option error) : outcome bool :=
  isMySQLErr err [1290].

Definition isMySQLErrDupEntry (err : option error) : outcome bool :=
  isMySQLErr err [1062].

(** [isMySQLErrReadOnly(err) || isMySQLErrNoAccess(err)]: the second call is
    made when the first one returns false. *)
Definition isMySQLErrCantWrite (err : option error) : outcome bool :=
  match isMySQLErrReadOnly err with
  | Panics => Panics
  | Returns true => Returns true
  | Returns false => isMySQLErrNoAccess err
  end.


(** [eventType] is the rsql implementation of the [EventType] interface. *)
Definition eventType : Type := Z.
#[global] Instance eventType_ReflexType : reflex.EventType eventType :=
  fun t => t.

(** Modelled from the spec: the schema of an events table, declared outside
    db.go; an empty [metadataField] means that the table has no metadata
    column. *)
Record etableSchema : Type := mkEtableSchema {
  etable_name : string;
  timeField : string;
  typeField : string;
  foreignIDField : string;
  metadataField : string
}.

(** What the store and the driver do with the representation [V] of a cursor:
    the comparison [cursorField < ?] of a stored cursor with an argument, and
    the conversion of a stored cursor to a Go string by [Scan]. *)
Class CursorRepr (V : Type) := mkCursorRepr {
  cursor_lt : V -> V -> bool;
  cursor_string : V -> string
}.

(** Modelled from the spec: the cursor type descriptor, whose source is
    absent; it casts a cursor string into the representation that the store
    compares, and may fail. *)
Record cursorType (V : Type) : Type := mkCursorType {
  Cast : string -> error + V
}.
Arguments Cast {V} _ _.

(** Modelled from the spec: the schema of a cursors table, declared outside
    db.go. *)
Record ctableSchema (V : Type) : Type := mkCtableSchema {
  ctable_name : string;
  idField : string;
  cursorField : string;
  timefield : string;
  cursorType_ : cursorType V
}.
Arguments ctable_name {V} _.
Arguments idField {V} _.
Arguments cursorField {V} _.
Arguments timefield {V} _.
Arguments cursorType_ {V} _.

Section Store.

Context {V : Type} `{CursorRepr V}.

(** A row of the events table: id (auto-assigned primary key), foreign id,
    timestamp, type and metadata. *)
Record erow : Type := mkErow {
  row_id : Z;
  row_foreign_id : string;
  row_timestamp : reflex.Time;
  row_type : Z;
  row_metadata : option (list Byte.byte)
}.

(** A row of the cursors table: id (the consumer, unique key), cursor and
    timestamp. *)
Record crow : Type := mkCrow {
  cur_id : string;
  cur_cursor : V;
  cur_timestamp : reflex.Time
}.

(** The database.  [faults] is the oracle of driver failures: every call of
    the driver takes its head, [Some err] making that call fail with [err]
    and leave the tables alone; an empty oracle holds no more failures. *)
Record DB : Type := mkDB {
  events : list erow;
  auto_increment : Z;
  cursors : list crow;
  clock : reflex.Time;
  faults : list (option error)
}.

Definition M (A : Type) : Type := DB -> A * DB.

Definition ret {A : Type} (a : A) : M A := fun db => (a, db).

Definition bind {A B : Type} (m : M A) (k : A -> M B) : M B :=
  fun db => let '(a, db') := m db in k a db'.

Notation "x <- m ;; k" := (bind m (fun x => k))
  (at level 100, m at next level, right associativity).

Definition next_fault : M (option error) :=
  fun db =>
    match faults db with
    | [] => (None, db)
    | f :: rest =>
        (f, {| events := events db; auto_increment := auto_increment db;
               cursors := cursors db; clock := clock db; faults := rest |})
    end.

(** [now(6)] has microsecond precision, [now()] second precision. *)
Definition now_6 (db : DB) : reflex.Time := clock db / 1000 * 1000.
Definition now_0 (db : DB) : reflex.Time :=
  clock db / reflex.Second * reflex.Second.

(** *** Statements run by [ExecContext] *)

Inductive exec_stmt : Type :=
| InsertEvent (foreignID : string) (typ : Z)
    (metadata : option (option (list Byte.byte)))
    (* insert into <name> set <foreignIDField>=?, <timeField>=now(6),
       <typeField>=? [, <metadataField>=?]; metadata is None when the
       statement does not set the column *)
| UpdateCursor (c : V) (id : string)
    (* update <name> set <cursorField>=?, <timefield>=now()
       where <idField>=? and <cursorField><?  with arguments c, id, c *)
| InsertCursor (id : string) (c : V).
    (* insert into <name> set <idField>=?, <cursorField>=?,
       <timefield>=now()  with arguments id, c *)

(** [sql.Result]. *)
Record Result : Type := mkResult { rows_affected : Z }.

Definition guard_hit (c : V) (id : string) (r : crow) : bool :=
  String.eqb (cur_id r) id && cursor_lt (cur_cursor r) c.

Definition has_cursor_row (id : string) (r : crow) : bool :=
  String.eqb (cur_id r) id.

(** 1062 ER_DUP_ENTRY, raised by the unique key on the id of a cursor. *)
Definition dup_entry : error := MySQLError 1062 "Duplicate entry".

(** What the guarded update does to a row, [t] being [now()]. *)
Definition update_row (c : V) (id : string) (t : reflex.Time) (r : crow)
  : crow :=
  if guard_hit c id r
  then {| cur_id := cur_id r; cur_cursor := c; cur_timestamp := t |}
  else r.

Definition run_exec (q : exec_stmt) (db : DB) : (error + Result) * DB :=
  match q with
  | InsertEvent foreignID typ metadata =>
      let r := {| row_id := auto_increment db;
                  row_foreign_id := foreignID;
                  row_timestamp := now_6 db;
                  row_type := typ;
                  row_metadata := match metadata with
                                  | Some md => md
                                  | None => None
                                  end |} in
      (inr {| rows_affected := 1 |},
       {| events := events db ++ [r];
          auto_increment := auto_increment db + 1;
          cursors := cursors db; clock := clock db; faults := faults db |})
  | UpdateCursor c id =>
      (inr {| rows_affected :=
                Z.of_nat (length (List.filter (guard_hit c id) (cursors db))) |},
       {| events := events db; auto_increment := auto_increment db;
          cursors := List.map (update_row c id (now_0 db)) (cursors db);
          clock := clock db; faults := faults db |})
  | InsertCursor id c =>
      if existsb (has_cursor_row id) (cursors db)
      then (inl dup_entry, db)
      else
        (inr {| rows_affected := 1 |},
         {| events := events db; auto_increment := auto_increment db;
            cursors := cursors db ++
              [{| cur_id := id; cur_cursor := c; cur_timestamp := now_0 db |}];
            clock := clock db; faults := faults db |})
  end.

Definition ExecContext (q : exec_stmt) : M (error + Result) :=
  f <- next_fault ;;
  match f with
  | Some err => ret (inl err)
  | None => run_exec q
  end.

(** [res.RowsAffected()]. *)
Definition RowsAffected (res : Result) : M (error + Z) :=
  f <- next_fault ;;
  match f with
  | Some err => ret (inl err)
  | None => ret (inr (rows_affected res))
  end.

(** *** Queries *)

(** select max(id) from <name>: [None] is the SQL NULL of an empty table. *)
Fixpoint max_id (rows : list erow) : option Z :=
  match rows with
  | [] => None
  | r :: rest =>
      match max_id rest with
      | None => Some (row_id r)
      | Some m => Some (Z.max (row_id r) m)
      end
  end.

(** [sql.NullInt64] and what [Scan] stores in it. *)
Record NullInt64 : Type := mkNullInt64 { Int64 : Z; Valid : bool }.

Definition Scan_NullInt64 (v : option Z) : NullInt64 :=
  match v with
  | Some n => {| Int64 := n; Valid := true |}
  | None => {| Int64 := 0; Valid := false |}
  end.

(** [dbc.QueryRowContext(ctx, q).Scan(&id)] for the query of the latest id. *)
Definition QueryRow_max_id : M (error + NullInt64) :=
  f <- next_fault ;;
  match f with
  | Some err => ret (inl err)
  | None => fun db => (inr (Scan_NullInt64 (max_id (events db))), db)
  end.

(** select <cursorField> from <name> where <idField>=?, scanned into a
    string; [sql.ErrNoRows] when no row matches. *)
Definition QueryRow_cursor (id : string) : M (error + string) :=
  f <- next_fault ;;
  match f with
  | Some err => ret (inl err)
  | None =>
      fun db =>
        match List.find (has_cursor_row id) (cursors db) with
        | Some r => (inr (cursor_string (cur_cursor r)), db)
        | None => (inl ErrNoRows, db)
        end
  end.

(** select id, <foreignIDField>, <timeField>, <typeField>, <metadataField>
    or null from <name> where id>? [and <timeField> <
    timestamp(now()-interval ? second)] order by id asc limit 1000 *)
Definition Qlt_bool (a b : Q) : bool := negb (Qle_bool b a).

Definition lag_bound (db : DB) (secs : Q) : Q :=
  (inject_Z (now_0 db) - secs * inject_Z reflex.Second)%Q.

Definition selected (db : DB) (after : Z) (lag : option Q) (r : erow) : bool :=
  (row_id r >? after) &&
  match lag with
  | Some secs => Qlt_bool (inject_Z (row_timestamp r)) (lag_bound db secs)
  | None => true
  end.

Definition id_le (a b : erow) : Prop := row_id a <= row_id b.

#[global] Instance id_le_dec (a b : erow) : Decision (id_le a b) :=
  Z_le_dec (row_id a) (row_id b).

Definition project (withMetadata : bool) (r : erow) : erow :=
  {| row_id := row_id r; row_foreign_id := row_foreign_id r;
     row_timestamp := row_timestamp r; row_type := row_type r;
     row_metadata := if withMetadata then row_metadata r else None |}.

Definition select_events (withMetadata : bool) (after : Z) (lag : option Q)
    (db : DB) : list erow :=
  List.map (project withMetadata)
    (take 1000 (merge_sort id_le (List.filter (selected db after lag) (events db)))).

Definition QueryContext (withMetadata : bool) (after : Z) (lag : option Q)
  : M (error + list erow) :=
  f <- next_fault ;;
  match f with
  | Some err => ret (inl err)
  | None => fun db => (inr (select_events withMetadata after lag db), db)
  end.


(** *** The accessors of db.go *)

Definition err_of {A : Type} (r : error + A) : option error :=
  match r with
  | inl err => Some err
  | inr _ => None
  end.

Definition is_nil {A : Type} (o : option A) : bool :=
  match o with
  | None => true
  | Some _ => false
  end.

(** *** Transactions

    The inserter runs its statement on a transaction, [tx.ExecContext], and
    the readers run theirs on the pool, [dbc.QueryContext] and
    [dbc.QueryRowContext].  [sql.Tx] and the store are outside db.go. *)

(** Modelled from the spec: a fetch observes committed rows only.  An open
    transaction holds the store as it was when the transaction began and
    the store as the transaction has left it so far; no other connection
    writes in between. *)
Record Tx : Type := mkTx { begun : DB; current : DB }.

Definition BeginTx (db : DB) : Tx := {| begun := db; current := db |}.

(** A call that is given the transaction runs on the store as the
    transaction sees it. *)
Definition in_tx {A : Type} (m : M A) (tx : Tx) : A * Tx :=
  let '(a, db) := m (current tx) in (a, {| begun := begun tx; current := db |}).

(** Modelled from the spec: a commit shows the pool what the transaction
    wrote. *)
Definition Commit (tx : Tx) : DB := current tx.

(** Modelled from the spec: a rollback drops the rows the transaction
    wrote; their ids are not given again, the clock and the oracle of the
    driver do not go back. *)
Definition Rollback (tx : Tx) : DB :=
  {| events := events (begun tx);
     auto_increment := auto_increment (current tx);
     cursors := cursors (begun tx);
     clock := clock (current tx);
     faults := faults (current tx) |}.

(** [makeDefaultInserter] returns the default sql inserter.  The closure
    runs its one statement on the transaction [tx] it is given: as a state
    transformer it acts on the store as that transaction sees it, and the
    pool sees the row once the transaction has committed. *)
Definition makeDefaultInserter (schema : etableSchema)
    {T : Type} `{reflex.EventType T}
    (foreignID : string) (typ : T) (metadata : option (list Byte.byte))
  : M (option error) :=
  let args : error + option (option (list Byte.byte)) :=
    if negb (String.eqb (metadataField schema) "") then inr (Some metadata)
    else if negb (is_nil metadata) then inl (ErrNew "metadata not enabled" [])
    else inr None in
  match args with
  | inl err => ret (Some err)
  | inr md =>
      r <- ExecContext (InsertEvent foreignID (reflex.ReflexType typ) md) ;;
      ret (Wrap (err_of r) "insert error" [])
  end.

(** [scan]: [row.Scan] may fail; the id is formatted in base 10. *)
Definition scan (row : erow) : M (error + reflex.Event) :=
  f <- next_fault ;;
  match f with
  | Some err => ret (inl err)
  | None =>
      ret (inr {| reflex.ID := pretty (row_id row);
                  reflex.Type_ := row_type row;
                  reflex.ForeignID := row_foreign_id row;
                  reflex.Timestamp := row_timestamp row;
                  reflex.MetaData := row_metadata row |})
  end.

Definition getLatestID (schema : etableSchema) : M (Z * option error) :=
  r <- QueryRow_max_id ;;
  match r with
  | inl err => ret (0, Some err)
  | inr id => ret (Int64 id, None)
  end.

(** [for rows.Next() { ... }] followed by [return el, rows.Err()]: a call of
    [rows.Next] that fails ends the loop and [rows.Err] reports its error;
    a failing [scan] returns no event at all. *)
Fixpoint scan_rows (rows : list erow) (el : list reflex.Event)
  : M (list reflex.Event * option error) :=
  match rows with
  | [] =>
      f <- next_fault ;;
      ret (el, f)
  | row :: rest =>
      f <- next_fault ;;
      match f with
      | Some err => ret (el, Some err)
      | None =>
          e <- scan row ;;
          match e with
          | inl err => ret ([], Some err)
          | inr batch => scan_rows rest (el ++ [batch])
          end
      end
  end.

Definition getNextEvents (schema : etableSchema) (after : Z)
    (lag : reflex.Duration) : M (list reflex.Event * option error) :=
  let withMetadata := negb (String.eqb (metadataField schema) "") in
  let lagArg := if lag >? 0 then Some (reflex.Seconds lag) else None in
  r <- QueryContext withMetadata after lagArg ;;
  match r with
  | inl err => ret ([], Some err)
  | inr rows => scan_rows rows []
  end.

(** Modelled from the spec: [EventsTable], declared outside db.go, of which
    only the schema matters here. *)
Record EventsTable : Type := mkEventsTable { schema_ : etableSchema }.

Definition GetNextEventsForTesting (table : EventsTable) (after : Z)
    (lag : reflex.Duration) : M (list reflex.Event * option error) :=
  getNextEvents (schema_ table) after lag.

Definition GetLatestIDForTesting (eventTable : string) : M (Z * option error) :=
  getLatestID {| etable_name := eventTable; timeField := ""; typeField := "";
                 foreignIDField := ""; metadataField := "" |}.

Definition getCursor (schema : ctableSchema V) (id : string)
  : M (string * option error) :=
  r <- QueryRow_cursor id ;;
  match r with
  | inl err =>
      if Is_ErrNoRows err then ret ("", None)
      else ret ("", Wrap (Some err) "query last id error" [])
  | inr cursor => ret (cursor, None)
  end.

(** [setCursor] sets the last successfully processed event id of the
    consumer [id] to [cursor].  It returns an error, which may be nil, or
    panics where [isMySQLErrDupEntry] does. *)
Definition setCursor (schema : ctableSchema V) (id : string) (cursor : string)
  : M (outcome (option error)) :=
  let opts := [KS "consumer" id; KS "cursor" cursor] in
  match Cast (cursorType_ schema) cursor with
  | inl err => ret (Returns (Some err))
  | inr c =>
      r <- ExecContext (UpdateCursor c id) ;;
      match r with
      | inl err => ret (Returns (Wrap (Some err) "set cursor error" opts))
      | inr res =>
          n <- RowsAffected res ;;
          match n with
          | inl err =>
              ret (Returns (Wrap (Some err) "rows affected error" opts))
          | inr rows =>
              if rows >? 1
              then ret (Returns (New "invalid rows affected error" opts))
              else if rows =? 1 then ret (Returns None)
              else
                r2 <- ExecContext (InsertCursor id c) ;;
                let err := err_of r2 in
                match isMySQLErrDupEntry err with
                | Panics => ret Panics
                | Returns true =>
                    ret (Returns (Wrap err
                           "attempted to set cursor <= existing cursor" opts))
                | Returns false =>
                    if negb (is_nil err)
                    then ret (Returns (Wrap err "insert cursor error" opts))
                    else ret (Returns None)
                end
          end
      end
  end.

(** *** Notions used to state the properties *)

(** The keys of the two tables: the primary key of the events table and the
    unique key on the consumer id of the cursors table. *)
Definition primary_key (db : DB) : Prop := NoDup (List.map row_id (events db)).
Definition unique_key (db : DB) : Prop := NoDup (List.map cur_id (cursors db)).

(** The ids in use are below the counter that assigns the next one. *)
Definition fresh_ids (db : DB) : Prop :=
  Forall (fun r => row_id r < auto_increment db) (events db).

(** The cursor stored for a consumer, if any. *)
Definition stored_in (id : string) (cs : list crow) : option V :=
  option_map cur_cursor (List.find (has_cursor_row id) cs).
Definition stored (id : string) (db : DB) : option V :=
  stored_in id (cursors db).

(** No call of the driver fails from now on. *)
Definition healthy (db : DB) : Prop := Forall (fun f => f = None) (faults db).

(** The database once the driver has taken the head of the oracle. *)
Definition drop_fault (db : DB) : DB :=
  {| events := events db; auto_increment := auto_increment db;
     cursors := cursors db; clock := clock db; faults := tail (faults db) |}.

(** Two states of the database that differ in the oracle at most. *)
Definition same_store (db db' : DB) : Prop :=
  events db' = events db /\ auto_increment db' = auto_increment db /\
  cursors db' = cursors db /\ clock db' = clock db.

(** Whether the guarded update or the insert of [setCursor] lets the cursor
    [c] in: the consumer has no row, or the store compares its cursor less
    than [c]. *)
Definition advances (c : V) (id : string) (db : DB) : bool :=
  match stored id db with
  | Some v => cursor_lt v c
  | None => true
  end.

(** The rows that a query with the given lower bound and lag selects, in the
    order of their ids, before the limit applies. *)
Definition candidates (db : DB) (after : Z) (lag : option Q) : list erow :=
  merge_sort id_le (List.filter (selected db after lag) (events db)).

(** The event that [scan] makes of a row. *)
Definition event_of (row : erow) : reflex.Event :=
  {| reflex.ID := pretty (row_id row);
     reflex.Type_ := row_type row;
     reflex.ForeignID := row_foreign_id row;
     reflex.Timestamp := row_timestamp row;
     reflex.MetaData := row_metadata row |}.

End Store.

Arguments erow : clear implicits.
Arguments crow : clear implicits.
Arguments DB : clear implicits.
Arguments exec_stmt : clear implicits.
Arguments M : clear implicits.

(** *** The two representations of a cursor *)

Definition digit_of (c : Ascii.ascii) : option Z :=
  let n := Z.of_N (Ascii.N_of_ascii c) in
  if (48 <=? n) && (n <=? 57) then Some (n - 48) else None.

Fixpoint parse_digits (s : string) (acc : Z) : option Z :=
  match s with
  | EmptyString => Some acc
  | String c rest =>
      match digit_of c with
      | Some d => parse_digits rest (acc * 10 + d)
      | None => None
      end
  end.

(** [strconv.ParseInt(s, 10, 64)]: an optional sign, then one digit at least,
    and a value in the range of an int64. *)
Definition ParseInt (s : string) : option Z :=
  let signed :=
    match s with
    | EmptyString => None
    | String "-"%char EmptyString | String "+"%char EmptyString => None
    | String "-"%char rest => option_map Z.opp (parse_digits rest 0)
    | String "+"%char rest => parse_digits rest 0
    | _ => parse_digits s 0
    end in
  match signed with
  | Some n =>
      if (reflex.minDuration <=? n) && (n <=? reflex.maxDuration)
      then Some n else None
  | None => None
  end.

(** Modelled from the spec: the numeric cursor type, whose source is absent.
    Cursors are cast to integers, compared as numbers and read back in
    base 10. *)
Definition cursorTypeInt : cursorType Z :=
  {| Cast := fun s =>
       match ParseInt s with
       | Some n => inr n
       | None => inl (ErrDriver "strconv.ParseInt: invalid syntax")
       end |}.

#[global] Instance CursorRepr_int : CursorRepr Z :=
  {| cursor_lt := Z.ltb; cursor_string := pretty |}.

(** Modelled from the spec: the string cursor type, whose source is absent.
    Cursors are kept as they are and compared as strings. *)
Definition cursorTypeString : cursorType string :=
  {| Cast := fun s => inr s |}.

Definition CursorRepr_string : CursorRepr string :=
  {| cursor_lt := String.ltb; cursor_string := fun s => s |}.

(** *** A store to run the accessors on *)

Definition int_cursors : ctableSchema Z :=
  {| ctable_name := "cursors"; idField := "id"; cursorField := "last_event_id";
     timefield := "updated_at"; cursorType_ := cursorTypeInt |}.

Definition plain_events : etableSchema :=
  {| etable_name := "events"; timeField := defaultEventTimeField;
     typeField := defaultEventTypeField;
     foreignIDField := defaultEventForeignIDField;
     metadataField := defaultMetadataField |}.

Definition empty_db : DB Z :=
  {| events := []; auto_increment := 1; cursors := [];
     clock := 1700000000123456789; faults := [] |}.

(** Three events, stored out of order; at the clock of the store the second
    one is five seconds old and the others forty and fifty. *)
Definition sample_db : DB Z :=
  {| events :=
       [ {| row_id := 3; row_foreign_id := "order-9"; row_timestamp := 60000000000;
            row_type := 1; row_metadata := None |};
         {| row_id := 1; row_foreign_id := "order-7"; row_timestamp := 50000000000;
            row_type := 1; row_metadata := None |};
         {| row_id := 2; row_foreign_id := "order-8"; row_timestamp := 95000000000;
            row_type := 2; row_metadata := None |} ];
     auto_increment := 4; cursors := [];
     clock := 100000000000; faults := [] |}.

End rsql.

(** * Properties *)

(** ** The error classifiers *)

Module classifier_proofs.
Import rsql.

Lemma number_in_spec (n : Z) (nums : list Z) :
  number_in n nums = true <-> In n nums.
Proof.
  induction nums as [|num rest IH]; simpl.
  - split; [discriminate | tauto].
  - destruct (Z.eqb_spec n num) as [->|Hne].
    + split; auto.
    + rewrite IH. split; [auto | intros [Heq|Hin]; congruence].
Qed.

(** [isMySQLErr] returns true when the first MySQL error of the chain of
    causes is behind a non-nil pointer and has one of the numbers [nums],
    and then only. *)
Lemma isMySQLErr_spec (e : error) (nums : list Z) :
  isMySQLErr (Some e) nums = Returns true <->
  exists n m, As_MySQLError e = Some (Some (n, m)) /\ In n nums.
Proof.
  unfold isMySQLErr. destruct (As_MySQLError e) as [[[n m]|]|].
  - split.
    + intros [= Hin]. apply number_in_spec in Hin. exists n, m. auto.
    + intros (n' & m' & [= <- <-] & Hin). f_equal.
      apply number_in_spec. exact Hin.
  - split; [destruct nums; discriminate | intros (n & m & Heq & _); discriminate].
  - split; [discriminate | intros (n & m & Heq & _); discriminate].
Qed.

Lemma isMySQLErr_other_number (e : error) (n : Z) (m : string) (nums : list Z) :
  As_MySQLError e = Some (Some (n, m)) -> ~ In n nums ->
  isMySQLErr (Some e) nums = Returns false.
Proof.
  intros HAs Hnot. unfold isMySQLErr. rewrite HAs. f_equal.
  apply not_true_is_false. rewrite number_in_spec. exact Hnot.
Qed.

(** C8, as amended: the classifiers [isMySQLErrCantWrite] and
    [isMySQLErrDupEntry] return false for the nil error, for every error
    whose chain of causes holds no MySQL error, and for a MySQL error behind
    a non-nil pointer whose number is none of those they look for; on an
    error whose chain holds a nil pointer to a MySQL error first, both
    panic. *)
Theorem classifiers_false_unless_recognised :
  (isMySQLErrCantWrite None = Returns false /\
   isMySQLErrDupEntry None = Returns false) /\
  (forall e : error,
      As_MySQLError e = None ->
      isMySQLErrCantWrite (Some e) = Returns false /\
      isMySQLErrDupEntry (Some e) = Returns false) /\
  (forall (e : error) (n : Z) (m : string),
      As_MySQLError e = Some (Some (n, m)) ->
      (~ In n [1290; 1142; 1143; 1370] ->
       isMySQLErrCantWrite (Some e) = Returns false) /\
      (n <> 1062 -> isMySQLErrDupEntry (Some e) = Returns false)) /\
  (forall e : error,
      As_MySQLError e = Some None ->
      isMySQLErrCantWrite (Some e) = Panics /\
      isMySQLErrDupEntry (Some e) = Panics).
Proof.
  split; [split; reflexivity|]. split; [|split].
  - intros e HAs.
    unfold isMySQLErrCantWrite, isMySQLErrReadOnly, isMySQLErrNoAccess,
      isMySQLErrDupEntry, isMySQLErr.
    rewrite HAs. split; reflexivity.
  - intros e n m HAs. split.
    + intros Hnot. unfold isMySQLErrCantWrite, isMySQLErrReadOnly, isMySQLErrNoAccess.
      rewrite (isMySQLErr_other_number e n m [1290]),
        (isMySQLErr_other_number e n m [1142; 1143; 1370]); try assumption.
      * reflexivity.
      * intros Hin. apply Hnot. right. exact Hin.
      * intros [Hin|[]]. apply Hnot. left. exact Hin.
    + intros Hne. unfold isMySQLErrDupEntry.
      apply (isMySQLErr_other_number e n m); [assumption|].
      intros [Hin|[]]. congruence.
  - intros e HAs.
    unfold isMySQLErrCantWrite, isMySQLErrReadOnly, isMySQLErrNoAccess,
      isMySQLErrDupEntry, isMySQLErr.
    rewrite HAs. split; reflexivity.
Qed.

Lemma classifiers_false_unless_recognised_witness :
  isMySQLErrCantWrite (Some (ErrWrap (ErrDriver "bad connection") "insert error" [])) =
    Returns false /\
  isMySQLErrDupEntry (Some (ErrWrap ErrNoRows "query last id error" [])) =
    Returns false /\
  isMySQLErrCantWrite (Some (ErrWrap (MySQLError 1062 "Duplicate entry") "insert error" [])) =
    Returns false /\
  isMySQLErrDupEntry (Some (MySQLError 1290 "read only")) = Returns false /\
  isMySQLErrDupEntry (Some (ErrWrap NilMySQLError "insert error" [])) = Panics.
Proof.
  destruct classifiers_false_unless_recognised as (_ & Hnone & Hother & Hnil).
  split; [apply Hnone; reflexivity|].
  split; [apply Hnone; reflexivity|].
  split; [|split].
  - apply (Hother _ 1062 "Duplicate entry"); [reflexivity|].
    simpl. intros [H|[H|[H|[H|[]]]]]; discriminate H.
  - apply (Hother _ 1290 "read only"); [reflexivity|]. discriminate.
  - apply Hnil. reflexivity.
Defined.

(** C8, as first stated, fails: a non-nil error that is a nil pointer to a
    MySQL error carries no error number, and the classifiers do not return
    false on it: [errors.As] succeeds and the read of [me.Number] panics.
    So does an error that wraps such a pointer. *)
Lemma classifiers_panic_on_nil_MySQLError :
  (forall n m, As_MySQLError NilMySQLError <> Some (Some (n, m))) /\
  isMySQLErrCantWrite (Some NilMySQLError) = Panics /\
  isMySQLErrDupEntry (Some NilMySQLError) = Panics /\
  isMySQLErrCantWrite (Some NilMySQLError) <> Returns false /\
  isMySQLErrDupEntry (Some NilMySQLError) <> Returns false /\
  isMySQLErrDupEntry (Some (ErrWrap NilMySQLError "insert error" [])) = Panics.
Proof.
  split; [intros n m; discriminate|].
  split; [reflexivity|]. split; [reflexivity|].
  split; [discriminate|]. split; [discriminate | reflexivity].
Qed.

End classifier_proofs.

(** ** The instrumented consumer *)

Module consumer_proofs.
Import reflex.

Section Consume.

Context {S : Type}.
Implicit Types (c : consumer S) (event : Event) (w : World S).

(** The metric store when [Consume] calls the handler. *)
Lemma Consume_unfold c event w :
  Consume c event w =
  (fst (handled c event w),
   {| now := fst (snd (handled c event w));
      prom :=
        match fst (handled c event w) with
        | Panics => fun m => m
        | Returns err =>
            fun m =>
              Observe (latencyHist c)
                (Seconds_float64 (Sub (fst (snd (handled c event w))) (now w)))
                (match err with
                 | Some _ => Counter_Inc (errorCounter c) m
                 | None => m
                 end)
        end
          (Gauge_Set (lagAlertGauge c)
             (if (Sub (now w) (Timestamp event) >? lagAlert c)
                   && (lagAlert c >? 0)
              then 1%float else 0%float)
             (Gauge_Set (lagGauge c)
                (Seconds_float64 (Sub (now w) (Timestamp event)))
                (SetActive (activityKey c) (now w) (prom w))));
      user := snd (snd (handled c event w)) |}).
Proof.
  unfold Consume, handled.
  destruct (fn c event (now w, user w)) as [res [t1 u]]; simpl.
  destruct res as [[err|]|]; reflexivity.
Qed.

Lemma apply_options_snoc (opts : list (ConsumerOption S))
    (o : ConsumerOption S) c :
  apply_options (opts ++ [o]) c = o (apply_options opts c).
Proof.
  revert c. induction opts as [|o' opts IH]; intros c; simpl; [reflexivity|].
  apply IH.
Qed.

(** The threshold of a new consumer is thirty minutes unless an option sets
    it, and the last option that sets it decides. *)
Lemma NewConsumer_lagAlert (name0 : string) (fn0 : handler S)
    (opts : list (ConsumerOption S)) (d : Duration) (m : metrics) :
  lagAlert (fst (NewConsumer name0 fn0 [] m)) = 30 * Minute /\
  lagAlert (fst (NewConsumer name0 fn0 (opts ++ [WithConsumerLagAlert d]) m)) = d /\
  lagAlert (fst (NewConsumer name0 fn0 (opts ++ [WithoutConsumerLag]) m)) = -1.
Proof.
  unfold NewConsumer, Register. rewrite !apply_options_snoc.
  split; [reflexivity|]. split; reflexivity.
Qed.

(** C4: [Consume] returns the very error value of the wrapped handler, and
    the error counter grows by one when the handler failed and by nothing
    when it succeeded, whatever the lag-alert threshold of the consumer;
    no other counter moves. *)
Theorem Consume_propagates_error c event w :
  fst (Consume c event w) = fst (handled c event w) /\
  counters (prom (snd (Consume c event w))) (errorCounter c) =
    counters (prom w) (errorCounter c) + one_if_failed (fst (handled c event w)) /\
  (forall k : Counter,
      k <> errorCounter c ->
      counters (prom (snd (Consume c event w))) k = counters (prom w) k).
Proof.
  rewrite Consume_unfold. simpl.
  destruct (fst (handled c event w)) as [[err|]|]; simpl.
  - split; [reflexivity|]. split.
    + rewrite fn_lookup_insert. reflexivity.
    + intros k Hk. rewrite fn_lookup_insert_ne by congruence. reflexivity.
  - split; [reflexivity|]. split; [lia | reflexivity].
  - split; [reflexivity|]. split; [lia | reflexivity].
Qed.

(** C9, as amended: a call of [Consume] whose handler returns, with nil or
    with an error, adds one observation to the latency histogram: the
    seconds, in float64, of the time from the start of the call to the
    return of the handler.  The observation is not deferred: when the
    handler panics, [Consume] panics and the histogram is as before.  No
    other histogram is touched. *)
Theorem Consume_observes_latency c event w :
  match fst (handled c event w) with
  | Returns _ =>
      observations (prom (snd (Consume c event w))) (latencyHist c) =
        observations (prom w) (latencyHist c) ++
          [Seconds_float64 (Sub (fst (snd (handled c event w))) (now w))]
  | Panics =>
      fst (Consume c event w) = Panics /\
      observations (prom (snd (Consume c event w))) (latencyHist c) =
        observations (prom w) (latencyHist c)
  end /\
  now (snd (Consume c event w)) = fst (snd (handled c event w)) /\
  (forall o : Observer,
      o <> latencyHist c ->
      observations (prom (snd (Consume c event w))) o = observations (prom w) o).
Proof.
  rewrite Consume_unfold. simpl.
  split; [|split; [reflexivity|]].
  - destruct (fst (handled c event w)) as [[err|]|]; simpl.
    + apply fn_lookup_insert.
    + apply fn_lookup_insert.
    + split; reflexivity.
  - intros o Ho.
    destruct (fst (handled c event w)) as [[err|]|]; simpl;
      try rewrite fn_lookup_insert_ne by congruence; reflexivity.
Qed.

(** C10: after every call of [Consume] the lag-alert gauge holds 1 exactly
    when the lag of the event exceeds the threshold and the threshold is
    strictly positive, and 0 otherwise.  Hence a threshold of zero, like the
    negative one of [WithoutConsumerLag], never raises the alert, and a
    raised alert is cleared by the next call whose event does not lag. *)
Theorem Consume_lag_alert c event event' w :
  let alert_after w event :=
    gauges (prom (snd (Consume c event w))) (lagAlertGauge c) in
  let lag w event := Sub (now w) (Timestamp event) in
  alert_after w event =
    (if decide (lagAlert c < lag w event /\ 0 < lagAlert c)
     then 1%float else 0%float) /\
  (lagAlert c <= 0 -> alert_after w event = 0%float) /\
  (lag (snd (Consume c event w)) event' <= lagAlert c ->
   alert_after (snd (Consume c event w)) event' = 0%float).
Proof.
  intros alert_after lag.
  assert (Hexact : forall w0 e0,
             alert_after w0 e0 =
             (if decide (lagAlert c < lag w0 e0 /\ 0 < lagAlert c)
              then 1%float else 0%float)).
  { intros w0 e0. unfold alert_after, lag. rewrite Consume_unfold. simpl.
    assert (Hset : forall v m,
               gauges (match fst (handled c e0 w0) with
                       | Panics => fun m => m
                       | Returns err =>
                           fun m =>
                             Observe (latencyHist c)
                               (Seconds_float64
                                  (Sub (fst (snd (handled c e0 w0))) (now w0)))
                               (match err with
                                | Some _ => Counter_Inc (errorCounter c) m
                                | None => m
                                end)
                       end (Gauge_Set (lagAlertGauge c) v m)) (lagAlertGauge c) = v).
    { intros v m. destruct (fst (handled c e0 w0)) as [[err|]|]; simpl;
        apply fn_lookup_insert. }
    rewrite Hset.
    destruct (decide _) as [[H1 H2]|Hn].
    - replace (Sub (now w0) (Timestamp e0) >? lagAlert c) with true
        by (symmetry; apply Z.gtb_lt; exact H1).
      replace (lagAlert c >? 0) with true
        by (symmetry; apply Z.gtb_lt; exact H2).
      reflexivity.
    - destruct (Sub (now w0) (Timestamp e0) >? lagAlert c) eqn:E1;
        destruct (lagAlert c >? 0) eqn:E2; try reflexivity.
      exfalso. apply Hn. split; apply Z.gtb_lt; assumption. }
  split; [apply Hexact|]. split.
  - intros Hle. rewrite Hexact.
    destruct (decide _) as [[_ H2]|_]; [lia | reflexivity].
  - intros Hle. rewrite Hexact.
    destruct (decide _) as [[H1 _]|_]; [lia | reflexivity].
Qed.

End Consume.

Lemma Consume_propagates_error_witness :
  let h : handler unit := fun _ s => (Returns (Some (ErrDriver "boom")), s) in
  let c := fst (NewConsumer "c" h [WithoutConsumerLag] (mkMetrics (fun _ => 0%float) (fun _ => 0) (fun _ => []) (fun _ => None) (fun _ => None))) in
  let w := mkWorld 10 (mkMetrics (fun _ => 0%float) (fun _ => 7) (fun _ => []) (fun _ => None) (fun _ => None)) tt in
  counters (prom (snd (Consume c (mkEvent "1" 0 "f" 3 None) w))) (consumerErrors_With "other") = 7 /\
  counters (prom (snd (Consume c (mkEvent "1" 0 "f" 3 None) w))) (consumerErrors_With "c") = 8.
Proof.
  intros h c w.
  destruct (Consume_propagates_error c (mkEvent "1" 0 "f" 3 None) w)
    as (_ & Hinc & Hother).
  split.
  - apply Hother. discriminate.
  - exact Hinc.
Defined.

Lemma Consume_observes_latency_witness :
  let failing : handler unit :=
    fun _ s => (Returns (Some (ErrDriver "boom")), (fst s + 250000000, tt)) in
  let m0 := mkMetrics (fun _ => 0%float) (fun _ => 0) (fun _ => []) (fun _ => None) (fun _ => None) in
  let c := fst (NewConsumer "c" failing [] m0) in
  let w := mkWorld 1000 m0 tt in
  let w' := snd (Consume c (mkEvent "1" 0 "f" 10 None) w) in
  observations (prom w') (consumerLatency_With "c") = [0.25%float] /\
  observations (prom w') (consumerLatency_With "other") = [].
Proof.
  intros failing m0 c w w'.
  destruct (Consume_observes_latency c (mkEvent "1" 0 "f" 10 None) w)
    as (Hone & _ & Hother).
  split.
  - exact Hone.
  - apply Hother. discriminate.
Defined.

(** C9, as first stated, fails on the exit by a panic: a handler that panics
    a quarter of a second into the call leaves the latency histogram
    without an observation. *)
Lemma Consume_panic_observes_nothing :
  let panicking : handler unit :=
    fun _ s => (Panics, (fst s + 250000000, tt)) in
  let m0 := mkMetrics (fun _ => 0%float) (fun _ => 0) (fun _ => []) (fun _ => None) (fun _ => None) in
  let c := fst (NewConsumer "c" panicking [] m0) in
  let w := mkWorld 1000 m0 tt in
  let out := Consume c (mkEvent "1" 0 "f" 10 None) w in
  fst out = Panics /\
  now (snd out) = 250001000 /\
  observations (prom (snd out)) (latencyHist c) = [] /\
  observations (prom (snd out)) (latencyHist c) <>
    observations (prom w) (latencyHist c) ++ [0.25%float].
Proof.
  intros panicking m0 c w out.
  split; [reflexivity|]. split; [reflexivity|]. split; [reflexivity|].
  discriminate.
Qed.

Lemma Consume_lag_alert_witness :
  let h : handler unit := fun _ s => (Returns None, (fst s + 5, tt)) in
  let m0 := mkMetrics (fun _ => 0%float) (fun _ => 0) (fun _ => []) (fun _ => None) (fun _ => None) in
  let c0 := fst (NewConsumer "c" h [WithConsumerLagAlert 0] m0) in
  let c1 := fst (NewConsumer "c" h [WithConsumerLagAlert 100] m0) in
  let w := mkWorld 1000 m0 tt in
  let old := mkEvent "1" 0 "f" 10 None in
  let fresh := mkEvent "2" 0 "f" 1000 None in
  gauges (prom (snd (Consume c0 old w))) (lagAlertGauge c0) = 0%float /\
  gauges (prom (snd (Consume c1 old w))) (lagAlertGauge c1) = 1%float /\
  gauges (prom (snd (Consume c1 fresh (snd (Consume c1 old w))))) (lagAlertGauge c1) = 0%float.
Proof.
  intros h m0 c0 c1 w old fresh.
  destruct (Consume_lag_alert c0 old fresh w) as (_ & Hoff & _).
  destruct (Consume_lag_alert c1 old fresh w) as (Hexact & _ & Hclear).
  split; [|split].
  - apply Hoff. simpl. lia.
  - rewrite Hexact. reflexivity.
  - apply Hclear. vm_compute. discriminate.
Defined.

End consumer_proofs.

(** ** The driver *)

Module store_proofs.
Import rsql.

Section Driver.

Context {V : Type} `{CursorRepr V}.
Implicit Types (db : DB V) (id : string) (cs : list (crow V)).

Lemma next_fault_eq db :
  next_fault db = (hd None (faults db), drop_fault db).
Proof. destruct db as [ev ai cs ck [|f fs]]; reflexivity. Qed.

Lemma healthy_hd db : healthy db -> hd None (faults db) = None.
Proof.
  unfold healthy. destruct (faults db) as [|f fs]; [reflexivity|].
  intros Hall. inversion Hall; subst. reflexivity.
Qed.

Lemma healthy_drop_fault db : healthy db -> healthy (drop_fault db).
Proof.
  unfold healthy, drop_fault; simpl.
  destruct (faults db) as [|f fs]; simpl; [auto|].
  intros Hall. inversion Hall; assumption.
Qed.

Lemma ExecContext_eq (q : exec_stmt V) db :
  ExecContext q db =
  match hd None (faults db) with
  | Some err => (inl err, drop_fault db)
  | None => run_exec q (drop_fault db)
  end.
Proof.
  unfold ExecContext, bind. rewrite next_fault_eq.
  destruct (hd None (faults db)); reflexivity.
Qed.

Lemma RowsAffected_eq (res : Result) db :
  RowsAffected res db =
  (match hd None (faults db) with
   | Some err => inl err
   | None => inr (rows_affected res)
   end, drop_fault db).
Proof.
  unfold RowsAffected, bind. rewrite next_fault_eq.
  destruct (hd None (faults db)); reflexivity.
Qed.

Lemma QueryRow_cursor_eq id db :
  QueryRow_cursor id db =
  (match hd None (faults db) with
   | Some err => inl err
   | None =>
       match List.find (has_cursor_row id) (cursors db) with
       | Some r => inr (cursor_string (cur_cursor r))
       | None => inl ErrNoRows
       end
   end, drop_fault db).
Proof.
  unfold QueryRow_cursor, bind. rewrite next_fault_eq.
  destruct (hd None (faults db)); [reflexivity|]. simpl.
  destruct (List.find _ _); reflexivity.
Qed.

Lemma QueryRow_max_id_eq db :
  @QueryRow_max_id V db =
  (match hd None (faults db) with
   | Some err => inl err
   | None => inr (Scan_NullInt64 (max_id (events db)))
   end, drop_fault db).
Proof.
  unfold QueryRow_max_id, bind. rewrite next_fault_eq.
  destruct (hd None (faults db)); reflexivity.
Qed.

Lemma QueryContext_eq (withMetadata : bool) (after : Z) (lag : option Q) db :
  QueryContext withMetadata after lag db =
  (match hd None (faults db) with
   | Some err => inl err
   | None => inr (select_events withMetadata after lag (drop_fault db))
   end, drop_fault db).
Proof.
  unfold QueryContext, bind. rewrite next_fault_eq.
  destruct (hd None (faults db)); reflexivity.
Qed.

(** *** The cursors table under its statements *)

Lemma stored_in_Some id cs v :
  stored_in id cs = Some v ->
  exists r, List.find (has_cursor_row id) cs = Some r /\ cur_cursor r = v.
Proof.
  unfold stored_in. destruct (List.find _ cs) as [r|]; simpl; [|discriminate].
  intros [= <-]. eauto.
Qed.

Lemma stored_in_None id cs :
  stored_in id cs = None <-> existsb (has_cursor_row id) cs = false.
Proof.
  unfold stored_in. induction cs as [|r cs IH]; simpl; [tauto|].
  destruct (has_cursor_row id r); simpl; [split; discriminate | exact IH].
Qed.

Lemma has_cursor_row_iff id (r : crow V) :
  has_cursor_row id r = true <-> cur_id r = id.
Proof. unfold has_cursor_row. apply String.eqb_eq. Qed.

(** Under the unique key, the stored cursor is the cursor of every row of
    the consumer. *)
Lemma unique_row id cs v (r : crow V) :
  NoDup (List.map cur_id cs) ->
  stored_in id cs = Some v -> In r cs -> cur_id r = id -> cur_cursor r = v.
Proof.
  unfold stored_in. induction cs as [|r0 cs IH]; simpl; [tauto|].
  intros Hnd Hst Hin Hid. inversion Hnd as [|? ? Hnotin Hnd']; subst.
  destruct (has_cursor_row (cur_id r) r0) eqn:Hhit.
  - simpl in Hst. injection Hst as <-.
    destruct Hin as [->|Hin]; [reflexivity|].
    apply has_cursor_row_iff in Hhit. exfalso. apply Hnotin.
    rewrite Hhit. apply list_elem_of_In, in_map. exact Hin.
  - destruct Hin as [->|Hin].
    + assert (Ht : has_cursor_row (cur_id r) r = true)
        by (apply has_cursor_row_iff; reflexivity).
      congruence.
    + apply IH; auto.
Qed.

Section CursorTable.

Variables (c : V) (id : string) (t : reflex.Time).

Abbreviation upd := (update_row c id t).

Lemma upd_cur_id (r : crow V) : cur_id (upd r) = cur_id r.
Proof. unfold update_row. destruct (guard_hit c id r); reflexivity. Qed.

Lemma upd_has_cursor_row k (r : crow V) :
  has_cursor_row k (upd r) = has_cursor_row k r.
Proof. unfold has_cursor_row. rewrite upd_cur_id. reflexivity. Qed.

Lemma update_keeps_ids cs : List.map cur_id (List.map upd cs) = List.map cur_id cs.
Proof.
  rewrite List.map_map. apply List.map_ext. intros r. apply upd_cur_id.
Qed.

Lemma update_no_hit cs :
  (forall r, In r cs -> guard_hit c id r = false) ->
  List.filter (guard_hit c id) cs = [] /\ List.map upd cs = cs.
Proof.
  induction cs as [|r cs IH]; simpl; [auto|].
  intros Hno. rewrite (Hno r (or_introl eq_refl)).
  destruct IH as [IH1 IH2]; [intros r' Hin; apply Hno; right; exact Hin|].
  split; [exact IH1|]. unfold update_row at 1.
  rewrite (Hno r (or_introl eq_refl)), IH2. reflexivity.
Qed.

(** A guarded update never lowers a stored cursor. *)
Lemma update_monotone cs k v :
  stored_in k cs = Some v ->
  exists v', stored_in k (List.map upd cs) = Some v' /\
             (v' = v \/ cursor_lt v v' = true).
Proof.
  unfold stored_in. induction cs as [|r cs IH]; [discriminate|].
  cbn [List.map List.find]. rewrite upd_has_cursor_row.
  destruct (has_cursor_row k r) eqn:Hk; simpl.
  - intros [= <-]. unfold update_row. destruct (guard_hit c id r) eqn:Hg; simpl.
    + exists c. split; [reflexivity|]. right.
      unfold guard_hit in Hg. apply andb_true_iff in Hg. tauto.
    + eauto.
  - exact IH.
Qed.

(** Under the unique key, a guarded update that hits a row leaves [c] as the
    stored cursor of the consumer. *)
Lemma update_hit cs :
  NoDup (List.map cur_id cs) ->
  List.filter (guard_hit c id) cs <> [] ->
  stored_in id (List.map upd cs) = Some c.
Proof.
  unfold stored_in. induction cs as [|r cs IH]; [simpl; congruence|].
  cbn [List.map List.find List.filter]. rewrite upd_has_cursor_row.
  intros Hnd Hne. apply NoDup_cons in Hnd as [Hnotin Hnd].
  destruct (has_cursor_row id r) eqn:Hid; simpl.
  - unfold update_row. destruct (guard_hit c id r) eqn:Hg; [reflexivity|].
    exfalso. apply Hne.
    apply update_no_hit. intros r' Hin.
    unfold guard_hit. apply andb_false_iff. left.
    apply not_true_is_false. intros Hr'. apply Hnotin.
    apply String.eqb_eq in Hr'. apply has_cursor_row_iff in Hid.
    rewrite Hid, <- Hr'. apply list_elem_of_In, in_map. exact Hin.
  - assert (Hg : guard_hit c id r = false).
    { unfold guard_hit. unfold has_cursor_row in Hid. rewrite Hid. reflexivity. }
    rewrite Hg in Hne. apply IH; assumption.
Qed.

(** Under the unique key, a cursor that the store compares greater than the
    stored one hits exactly one row. *)
Lemma update_hits_one cs v :
  NoDup (List.map cur_id cs) ->
  stored_in id cs = Some v ->
  cursor_lt v c = true ->
  length (List.filter (guard_hit c id) cs) = 1%nat.
Proof.
  unfold stored_in. induction cs as [|r cs IH]; [discriminate|].
  cbn [List.map List.find List.filter].
  intros Hnd Hst Hlt. apply NoDup_cons in Hnd as [Hnotin Hnd].
  destruct (has_cursor_row id r) eqn:Hid.
  - simpl in Hst. injection Hst as <-.
    unfold guard_hit at 1. unfold has_cursor_row in Hid. rewrite Hid, Hlt.
    simpl. f_equal.
    destruct (update_no_hit cs) as [-> _]; [|reflexivity].
    intros r' Hin. unfold guard_hit. apply andb_false_iff. left.
    apply not_true_is_false. intros Hr'. apply Hnotin.
    apply String.eqb_eq in Hr'. apply String.eqb_eq in Hid.
    rewrite Hid, <- Hr'. apply list_elem_of_In, in_map. exact Hin.
  - assert (Hg : guard_hit c id r = false).
    { unfold guard_hit. unfold has_cursor_row in Hid. rewrite Hid. reflexivity. }
    rewrite Hg. apply IH; assumption.
Qed.

Lemma insert_stored cs :
  existsb (has_cursor_row id) cs = false ->
  stored_in id
    (cs ++ [{| cur_id := id; cur_cursor := c; cur_timestamp := t |}]) = Some c.
Proof.
  unfold stored_in. induction cs as [|r cs IH]; simpl.
  - unfold has_cursor_row; simpl. rewrite String.eqb_refl. reflexivity.
  - destruct (has_cursor_row id r); simpl; [discriminate | exact IH].
Qed.

Lemma insert_keeps_stored cs k v (r : crow V) :
  stored_in k cs = Some v -> stored_in k (cs ++ [r]) = Some v.
Proof.
  unfold stored_in. induction cs as [|r0 cs IH]; simpl; [discriminate|].
  destruct (has_cursor_row k r0); simpl; [auto | exact IH].
Qed.

Lemma insert_unique cs :
  NoDup (List.map cur_id cs) ->
  existsb (has_cursor_row id) cs = false ->
  NoDup (List.map cur_id
           (cs ++ [{| cur_id := id; cur_cursor := c; cur_timestamp := t |}])).
Proof.
  intros Hnd Hex. rewrite List.map_app. simpl.
  apply NoDup_app. split; [exact Hnd|]. split.
  - intros x Hx Hx'. apply list_elem_of_In in Hx'. destruct Hx' as [<-|[]].
    apply list_elem_of_In, in_map_iff in Hx. destruct Hx as (r & Hr & Hin).
    assert (Hex' : existsb (has_cursor_row id) cs = true).
    { apply existsb_exists. exists r. split; [exact Hin|].
      apply has_cursor_row_iff. exact Hr. }
    congruence.
  - apply NoDup_singleton.
Qed.

End CursorTable.

(** *** [setCursor] and [getCursor] *)

Section CursorStore.

Variable schema : ctableSchema V.

(** [setCursor] step by step: the outcome of every call of the driver. *)
Lemma setCursor_eq id (cursor : string) (c : V) db :
  Cast (cursorType_ schema) cursor = inr c ->
  let opts := [KS "consumer" id; KS "cursor" cursor] in
  let db1 := drop_fault db in
  let hits := List.filter (guard_hit c id) (cursors db) in
  let db2 :=
    {| events := events db; auto_increment := auto_increment db;
       cursors := List.map (update_row c id (now_0 db)) (cursors db);
       clock := clock db; faults := tail (tail (faults db)) |} in
  setCursor schema id cursor db =
  match hd None (faults db) with
  | Some err => (Returns (Wrap (Some err) "set cursor error" opts), db1)
  | None =>
      match hd None (tail (faults db)) with
      | Some err => (Returns (Wrap (Some err) "rows affected error" opts), db2)
      | None =>
          if Z.of_nat (length hits) >? 1
          then (Returns (New "invalid rows affected error" opts), db2)
          else if Z.of_nat (length hits) =? 1 then (Returns None, db2)
          else
            match hd None (faults db2) with
            | Some err =>
                (match isMySQLErrDupEntry (Some err) with
                 | Panics => Panics
                 | Returns true =>
                     Returns (Wrap (Some err)
                                "attempted to set cursor <= existing cursor" opts)
                 | Returns false =>
                     Returns (Wrap (Some err) "insert cursor error" opts)
                 end,
                 drop_fault db2)
            | None =>
                if existsb (has_cursor_row id) (cursors db2)
                then (Returns (Wrap (Some dup_entry)
                                 "attempted to set cursor <= existing cursor" opts),
                      drop_fault db2)
                else
                  (Returns None,
                   {| events := events db; auto_increment := auto_increment db;
                      cursors := cursors db2 ++
                        [{| cur_id := id; cur_cursor := c;
                            cur_timestamp := now_0 db |}];
                      clock := clock db;
                      faults := tail (faults db2) |})
            end
      end
  end.
Proof.
  intros HCast opts db1 hits db2.
  unfold setCursor, bind, ret. rewrite HCast.
  rewrite ExecContext_eq.
  destruct (hd None (faults db)) as [err|]; [reflexivity|].
  cbn [run_exec]. rewrite RowsAffected_eq.
  unfold hits, db2, db1, now_0.
  cbn [faults drop_fault rows_affected cursors events auto_increment clock].
  destruct (hd None (tail (faults db))) as [err|]; [reflexivity|].
  destruct (Z.of_nat (length _) >? 1); [reflexivity|].
  destruct (Z.of_nat (length _) =? 1); [reflexivity|].
  rewrite ExecContext_eq.
  cbn [faults drop_fault rows_affected cursors events auto_increment clock].
  destruct (hd None (tail (tail (faults db)))) as [err|].
  - cbn [err_of is_nil negb].
    destruct (isMySQLErrDupEntry (Some err)) as [[|]|]; reflexivity.
  - unfold run_exec, now_0.
    cbn [faults drop_fault rows_affected cursors events auto_increment clock].
    destruct (existsb (has_cursor_row id) _); reflexivity.
Qed.

Lemma healthy_faults_tail (fs : list (option error)) :
  Forall (fun f => f = None) fs -> Forall (fun f => f = None) (tail fs).
Proof. destruct fs; simpl; [auto|]. intros Hall. inversion Hall; assumption. Qed.

Lemma healthy_faults_hd (fs : list (option error)) :
  Forall (fun f => f = None) fs -> hd None fs = None.
Proof. destruct fs; simpl; [auto|]. intros Hall. inversion Hall; assumption. Qed.

Lemma length_one_not_nil {A : Type} (l : list A) :
  (Z.of_nat (length l) =? 1) = true -> l <> [].
Proof. destruct l; simpl; [discriminate | congruence]. Qed.

(** A successful [setCursor] leaves the cast cursor in the store. *)
Lemma setCursor_success id (cursor : string) (c : V) db db' :
  unique_key db ->
  Cast (cursorType_ schema) cursor = inr c ->
  setCursor schema id cursor db = (Returns None, db') ->
  stored id db' = Some c /\ unique_key db'.
Proof.
  intros Huk HCast. rewrite (setCursor_eq id cursor c db HCast).
  cbv zeta. unfold Wrap, New.
  destruct (hd None (faults db)); [discriminate|].
  destruct (hd None (tail (faults db))); [discriminate|].
  destruct (_ >? 1); [discriminate|].
  destruct (_ =? 1) eqn:Hone.
  - intros [= <-]. unfold stored, unique_key; simpl. split.
    + apply update_hit; [exact Huk|]. apply length_one_not_nil. exact Hone.
    + rewrite update_keeps_ids. exact Huk.
  - cbn [faults cursors].
    destruct (hd None (tail (tail (faults db)))) as [err|].
    { destruct (isMySQLErrDupEntry (Some err)) as [[|]|]; discriminate. }
    destruct (existsb _ _) eqn:Hex; [discriminate|].
    intros [= <-]. unfold stored, unique_key; simpl. split.
    + apply insert_stored. exact Hex.
    + apply insert_unique; [|exact Hex]. rewrite update_keeps_ids. exact Huk.
Qed.

(** On a healthy store [setCursor] succeeds when the consumer has no row
    yet, and when the store compares the new cursor greater than the stored
    one. *)
Lemma setCursor_advances id (cursor : string) (c : V) db :
  healthy db -> unique_key db ->
  Cast (cursorType_ schema) cursor = inr c ->
  match stored id db with
  | None => True
  | Some v => cursor_lt v c = true
  end ->
  exists db',
    setCursor schema id cursor db = (Returns None, db') /\
    stored id db' = Some c /\ healthy db'.
Proof.
  intros Hh Huk HCast Hcase.
  assert (Hgoal : exists db',
             setCursor schema id cursor db = (Returns None, db') /\
             healthy db').
  { rewrite (setCursor_eq id cursor c db HCast). cbv zeta.
    unfold healthy in Hh.
    pose proof (healthy_faults_tail _ Hh) as Hh1.
    pose proof (healthy_faults_tail _ Hh1) as Hh2.
    pose proof (healthy_faults_tail _ Hh2) as Hh3.
    rewrite (healthy_faults_hd _ Hh), (healthy_faults_hd _ Hh1).
    destruct (stored id db) as [v|] eqn:Hst.
    - rewrite (update_hits_one c id (now_0 db) (cursors db) v Huk Hst Hcase).
      change (Z.of_nat 1 >? 1) with false. change (Z.of_nat 1 =? 1) with true.
      cbv iota. eexists. split; [reflexivity | exact Hh2].
    - apply stored_in_None in Hst.
      destruct (update_no_hit c id (now_0 db) (cursors db)) as [Hnil Hsame].
      { intros r Hin. unfold guard_hit. apply andb_false_iff. left.
        apply not_true_is_false. intros Hr.
        assert (Hex : existsb (has_cursor_row id) (cursors db) = true)
          by (apply existsb_exists; exists r; auto).
        congruence. }
      rewrite Hnil, Hsame. simpl length. simpl Z.of_nat.
      change (0 >? 1) with false. change (0 =? 1) with false. cbv iota.
      cbn [faults cursors]. rewrite (healthy_faults_hd _ Hh2), Hst.
      eexists. split; [reflexivity | exact Hh3]. }
  destruct Hgoal as (db' & Hset & Hh').
  exists db'. split; [exact Hset|]. split; [|exact Hh'].
  apply (setCursor_success id cursor c db db' Huk HCast Hset).
Qed.

(** Whatever its outcome, [setCursor] never lowers a stored cursor: the
    cursor of a consumer is afterwards what it was, or one that the store
    compares greater. *)
Lemma setCursor_monotone id (cursor : string) db err db' k v :
  setCursor schema id cursor db = (err, db') ->
  stored k db = Some v ->
  exists v', stored k db' = Some v' /\ (v' = v \/ cursor_lt v v' = true).
Proof.
  intros Hset Hst.
  destruct (Cast (cursorType_ schema) cursor) as [e|c] eqn:HCast.
  { unfold setCursor in Hset. rewrite HCast in Hset.
    injection Hset as _ <-. eauto. }
  rewrite (setCursor_eq id cursor c db HCast) in Hset. cbv zeta in Hset.
  pose proof (update_monotone c id (now_0 db) (cursors db) k v Hst)
    as (v' & Hupd & Hrel).
  destruct (hd None (faults db)).
  { injection Hset as _ <-. eauto. }
  destruct (hd None (tail (faults db))).
  { injection Hset as _ <-. exists v'. auto. }
  destruct (_ >? 1).
  { injection Hset as _ <-. exists v'. auto. }
  destruct (_ =? 1).
  { injection Hset as _ <-. exists v'. auto. }
  cbn [faults cursors] in Hset.
  destruct (hd None (tail (tail (faults db)))).
  { injection Hset as _ <-. exists v'. auto. }
  destruct (existsb _ _).
  { injection Hset as _ <-. exists v'. auto. }
  injection Hset as _ <-. exists v'. split; [|exact Hrel].
  unfold stored; simpl. apply insert_keeps_stored. exact Hupd.
Qed.

(** On a healthy store, setting a cursor that the store does not compare
    greater than the stored one fails on the duplicate key and leaves the
    cursors table as it was. *)
Lemma setCursor_regression id (cursor : string) (c v : V) db :
  healthy db -> unique_key db ->
  stored id db = Some v ->
  Cast (cursorType_ schema) cursor = inr c ->
  cursor_lt v c = false ->
  exists db',
    setCursor schema id cursor db =
      (Returns (Some (ErrWrap dup_entry
                        "attempted to set cursor <= existing cursor"
                        [KS "consumer" id; KS "cursor" cursor])), db') /\
    cursors db' = cursors db /\ healthy db'.
Proof.
  intros Hh Huk Hst HCast Hlt.
  rewrite (setCursor_eq id cursor c db HCast). cbv zeta.
  unfold healthy in Hh.
  pose proof (healthy_faults_tail _ Hh) as Hh1.
  pose proof (healthy_faults_tail _ Hh1) as Hh2.
  pose proof (healthy_faults_tail _ Hh2) as Hh3.
  rewrite (healthy_faults_hd _ Hh), (healthy_faults_hd _ Hh1).
  destruct (update_no_hit c id (now_0 db) (cursors db)) as [Hnil Hsame].
  { intros r Hin. unfold guard_hit.
    destruct (String.eqb (cur_id r) id) eqn:Hid; [|reflexivity]. simpl.
    apply String.eqb_eq in Hid.
    rewrite (unique_row id (cursors db) v r Huk Hst Hin Hid). exact Hlt. }
  rewrite Hnil, Hsame. simpl length. simpl Z.of_nat.
  change (0 >? 1) with false. change (0 =? 1) with false. cbv iota.
  cbn [faults cursors]. rewrite (healthy_faults_hd _ Hh2).
  assert (Hex : existsb (has_cursor_row id) (cursors db) = true).
  { apply not_false_iff_true. intros Hex.
    apply stored_in_None in Hex. unfold stored in Hst. congruence. }
  rewrite Hex. eexists. split; [reflexivity|]. split; [reflexivity|].
  exact Hh3.
Qed.

(** On a healthy store [getCursor] returns the stored cursor as a string,
    and the empty string when the consumer has no row; neither is an
    error. *)
Lemma getCursor_healthy id db :
  healthy db ->
  getCursor schema id db =
  (match stored id db with
   | Some v => cursor_string v
   | None => ""
   end, None, drop_fault db).
Proof.
  intros Hh. unfold getCursor, bind, ret. rewrite QueryRow_cursor_eq.
  rewrite (healthy_hd db Hh). unfold stored, stored_in.
  destruct (List.find (has_cursor_row id) (cursors db)); reflexivity.
Qed.

(** The unique key of the cursors table survives every call of
    [setCursor]. *)
Lemma setCursor_unique_key id (cursor : string) db err db' :
  unique_key db ->
  setCursor schema id cursor db = (err, db') ->
  unique_key db'.
Proof.
  intros Huk Hset.
  destruct (Cast (cursorType_ schema) cursor) as [e|c] eqn:HCast.
  { unfold setCursor in Hset. rewrite HCast in Hset.
    injection Hset as _ <-. exact Huk. }
  rewrite (setCursor_eq id cursor c db HCast) in Hset. cbv zeta in Hset.
  assert (Hupd : NoDup (List.map cur_id
                          (List.map (update_row c id (now_0 db)) (cursors db))))
    by (rewrite update_keeps_ids; exact Huk).
  destruct (hd None (faults db)).
  { injection Hset as _ <-. exact Huk. }
  destruct (hd None (tail (faults db))).
  { injection Hset as _ <-. exact Hupd. }
  destruct (_ >? 1).
  { injection Hset as _ <-. exact Hupd. }
  destruct (_ =? 1).
  { injection Hset as _ <-. exact Hupd. }
  cbn [faults cursors] in Hset.
  destruct (hd None (tail (tail (faults db)))).
  { injection Hset as _ <-. exact Hupd. }
  destruct (existsb _ _) eqn:Hex.
  { injection Hset as _ <-. exact Hupd. }
  injection Hset as _ <-. unfold unique_key; simpl.
  apply insert_unique; assumption.
Qed.

(** C1: the cursor stored for a consumer never decreases: however a call of
    [setCursor] ends, every stored cursor is afterwards the same or one
    that the store compares greater.  In particular, once [setCursor] has
    succeeded with a cursor, setting a cursor that is not greater fails on
    the duplicate key with the error wrapped as "attempted to set cursor <=
    existing cursor", the cursors table is unchanged, and [getCursor] still
    returns the first cursor. *)
Theorem setCursor_never_regresses :
  (forall id (cursor : string) db err db' k v,
      setCursor schema id cursor db = (err, db') ->
      stored k db = Some v ->
      exists v', stored k db' = Some v' /\ (v' = v \/ cursor_lt v v' = true)) /\
  (forall id (cur5 cur3 : string) (v5 v3 : V) db db1,
      unique_key db ->
      Cast (cursorType_ schema) cur5 = inr v5 ->
      Cast (cursorType_ schema) cur3 = inr v3 ->
      cursor_lt v5 v3 = false ->
      setCursor schema id cur5 db = (Returns None, db1) ->
      healthy db1 ->
      exists db2,
        setCursor schema id cur3 db1 =
          (Returns (Some (ErrWrap dup_entry
                            "attempted to set cursor <= existing cursor"
                            [KS "consumer" id; KS "cursor" cur3])), db2) /\
        cursors db2 = cursors db1 /\
        fst (getCursor schema id db2) = (cursor_string v5, None)).
Proof.
  split.
  - intros id cursor db err db' k v. apply setCursor_monotone.
  - intros id cur5 cur3 v5 v3 db db1 Huk H5 H3 Hlt Hset Hh.
    destruct (setCursor_success id cur5 v5 db db1 Huk H5 Hset) as [Hst Huk1].
    destruct (setCursor_regression id cur3 v3 v5 db1 Hh Huk1 Hst H3 Hlt)
      as (db2 & Hfail & Hsame & Hh2).
    exists db2. split; [exact Hfail|]. split; [exact Hsame|].
    rewrite (getCursor_healthy id db2 Hh2). unfold stored.
    rewrite Hsame. fold (stored id db1). rewrite Hst. reflexivity.
Qed.

(** C5: on a healthy store, [getCursor] for a consumer that has no row
    returns the empty string and no error, and changes no table. *)
Theorem getCursor_absent id db :
  healthy db ->
  stored id db = None ->
  getCursor schema id db = ("", None, drop_fault db).
Proof.
  intros Hh Hnone. rewrite (getCursor_healthy id db Hh), Hnone. reflexivity.
Qed.

End CursorStore.

(** *** The events table and its queries *)

Section EventLog.

Lemma scan_eq (row : erow) db :
  scan row db =
  (match hd None (faults db) with
   | Some err => inl err
   | None => inr (event_of row)
   end, drop_fault db).
Proof.
  unfold scan, bind, ret. rewrite next_fault_eq.
  destruct (hd None (faults db)); reflexivity.
Qed.

(** Whatever the driver does, the loop over the rows returns no event at
    all, or the events of a prefix of the rows, in their order. *)
Lemma scan_rows_prefix (rows : list erow) :
  forall (el : list reflex.Event) db,
    fst (fst (scan_rows rows el db)) = [] \/
    exists k, fst (fst (scan_rows rows el db)) =
              el ++ List.map event_of (take k rows).
Proof.
  induction rows as [|row rest IH]; intros el db.
  - right. exists 0%nat. simpl. unfold bind, ret.
    rewrite next_fault_eq. simpl. rewrite app_nil_r. reflexivity.
  - cbn [scan_rows]. unfold bind, ret. rewrite next_fault_eq.
    destruct (hd None (faults db)) as [err|].
    + right. exists 0%nat. simpl. rewrite app_nil_r. reflexivity.
    + rewrite scan_eq.
      destruct (hd None (faults (drop_fault db))) as [err|].
      * left. reflexivity.
      * destruct (IH (el ++ [event_of row]) (drop_fault (drop_fault db)))
          as [Hnil | [k Hk]].
        -- left. exact Hnil.
        -- right. exists (Datatypes.S k). rewrite Hk. simpl.
           rewrite <- app_assoc. reflexivity.
Qed.

(** With no failure of the driver the loop returns the events of all the
    rows and no error. *)
Lemma scan_rows_healthy (rows : list erow) :
  forall (el : list reflex.Event) db,
    healthy db ->
    exists db',
      scan_rows rows el db = (el ++ List.map event_of rows, None, db') /\
      healthy db' /\ events db' = events db /\ cursors db' = cursors db.
Proof.
  induction rows as [|row rest IH]; intros el db Hh.
  - exists (drop_fault db). simpl. unfold bind, ret.
    rewrite next_fault_eq, (healthy_hd db Hh), app_nil_r.
    auto using healthy_drop_fault.
  - cbn [scan_rows]. unfold bind, ret.
    rewrite next_fault_eq, (healthy_hd db Hh), scan_eq.
    pose proof (healthy_drop_fault db Hh) as Hh1.
    rewrite (healthy_hd _ Hh1).
    pose proof (healthy_drop_fault _ Hh1) as Hh2.
    destruct (IH (el ++ [event_of row]) _ Hh2) as (db' & Heq & Hh' & Hev & Hcs).
    exists db'. rewrite Heq. simpl. rewrite <- app_assoc. auto.
Qed.

#[local] Instance id_le_transitive : Transitive id_le.
Proof. unfold id_le. intros a b c. lia. Qed.

#[local] Instance id_le_total : Total id_le.
Proof. unfold id_le. intros a b. lia. Qed.

Lemma NoDup_ids_filter (f : erow -> bool) (rows : list erow) :
  NoDup (List.map row_id rows) -> NoDup (List.map row_id (List.filter f rows)).
Proof.
  induction rows as [|r rows IH]; simpl; [auto|].
  intros Hnd. apply NoDup_cons in Hnd as [Hnotin Hnd].
  destruct (f r); simpl; [|auto].
  apply NoDup_cons. split; [|auto].
  intros Hin. apply Hnotin.
  apply list_elem_of_In, in_map_iff in Hin. destruct Hin as (r' & Hid & Hin).
  apply filter_In in Hin. rewrite <- Hid.
  apply list_elem_of_In, in_map. tauto.
Qed.

Lemma NoDup_ids_take (k : nat) (rows : list erow) :
  NoDup (List.map row_id rows) -> NoDup (List.map row_id (take k rows)).
Proof.
  revert k. induction rows as [|r rows IH]; intros [|k]; simpl; auto using NoDup_nil_2.
  intros Hnd. apply NoDup_cons in Hnd as [Hnotin Hnd].
  apply NoDup_cons. split; [|auto].
  intros Hin. apply Hnotin.
  apply list_elem_of_In, in_map_iff in Hin. destruct Hin as (r' & Hid & Hin).
  rewrite <- Hid. apply list_elem_of_In, in_map.
  apply list_elem_of_In, (subseteq_take k rows), list_elem_of_In. exact Hin.
Qed.

Lemma StronglySorted_take {A : Type} (R : relation A) (k : nat) (l : list A) :
  StronglySorted R l -> StronglySorted R (take k l).
Proof.
  intros Hs. revert k. induction Hs as [|x l Hs IH Hall]; intros [|k]; simpl;
    try constructor.
  - apply IH.
  - rewrite Forall_forall in Hall. apply Forall_forall. intros y Hy.
    apply Hall. apply (subseteq_take k l). exact Hy.
Qed.

(** Rows sorted by id and without a repeated id are in strictly ascending
    order of their ids. *)
Lemma strictly_ascending (rows : list erow) :
  StronglySorted id_le rows ->
  NoDup (List.map row_id rows) ->
  StronglySorted Z.lt (List.map row_id rows).
Proof.
  induction 1 as [|r rows Hs IH Hall]; simpl; [constructor|].
  intros Hnd. apply NoDup_cons in Hnd as [Hnotin Hnd].
  constructor; [auto|].
  rewrite Forall_forall in Hall. apply Forall_forall. intros i Hi.
  apply list_elem_of_In, in_map_iff in Hi. destruct Hi as (r' & <- & Hin).
  assert (Hle : id_le r r') by (apply Hall, list_elem_of_In; exact Hin).
  assert (Hne : row_id r <> row_id r').
  { intros Heq. apply Hnotin. rewrite Heq. apply list_elem_of_In, in_map. exact Hin. }
  unfold id_le in Hle. lia.
Qed.

Section Select.

Variables (withMetadata : bool) (after : Z) (lag : option Q).

Lemma selected_project db (r : erow) :
  selected db after lag (project withMetadata r) = selected db after lag r.
Proof. reflexivity. Qed.

Lemma select_events_ids db :
  List.map row_id (select_events withMetadata after lag db) =
  List.map row_id
    (take 1000 (merge_sort id_le (List.filter (selected db after lag) (events db)))).
Proof.
  unfold select_events. rewrite List.map_map. reflexivity.
Qed.

(** Every row of the result satisfies the where clause. *)
Lemma select_events_selected db :
  Forall (fun r => selected db after lag r = true)
    (select_events withMetadata after lag db).
Proof.
  apply Forall_forall. intros r Hr. unfold select_events in Hr.
  apply list_elem_of_In, in_map_iff in Hr. destruct Hr as (r0 & <- & Hin).
  rewrite selected_project.
  apply list_elem_of_In, (subseteq_take 1000) in Hin.
  rewrite merge_sort_Permutation in Hin.
  apply list_elem_of_In, filter_In in Hin. tauto.
Qed.

(** Under the primary key the result is in strictly ascending order of id. *)
Lemma select_events_ascending db :
  primary_key db ->
  StronglySorted Z.lt (List.map row_id (select_events withMetadata after lag db)).
Proof.
  intros Hpk. rewrite select_events_ids.
  apply strictly_ascending.
  - apply StronglySorted_take, StronglySorted_merge_sort; apply _.
  - apply NoDup_ids_take.
    rewrite (Permutation_map row_id (merge_sort_Permutation id_le _)).
    apply NoDup_ids_filter. exact Hpk.
Qed.

(** The limit of the query. *)
Lemma select_events_length db :
  length (select_events withMetadata after lag db) =
  Nat.min 1000 (length (List.filter (selected db after lag) (events db))).
Proof.
  unfold select_events. rewrite length_map, length_take.
  rewrite (Permutation_length (merge_sort_Permutation id_le _)). reflexivity.
Qed.

Lemma select_events_none db :
  (forall r, In r (events db) -> selected db after lag r = false) ->
  select_events withMetadata after lag db = [].
Proof.
  intros Hnone. unfold select_events.
  assert (Hnil : List.filter (selected db after lag) (events db) = []).
  { induction (events db) as [|r rows IH]; simpl; [reflexivity|].
    rewrite (Hnone r (or_introl eq_refl)). apply IH.
    intros r' Hin. apply Hnone. right. exact Hin. }
  rewrite Hnil. reflexivity.
Qed.

End Select.

Section Fetch.

Variable schema : etableSchema.

Lemma getNextEvents_eq (after : Z) (lag : reflex.Duration) db :
  getNextEvents schema after lag db =
  match hd None (faults db) with
  | Some err => ([], Some err, drop_fault db)
  | None =>
      scan_rows
        (select_events (negb (String.eqb (metadataField schema) "")) after
           (if lag >? 0 then Some (reflex.Seconds lag) else None) db)
        [] (drop_fault db)
  end.
Proof.
  unfold getNextEvents, bind, ret. rewrite QueryContext_eq.
  destruct (hd None (faults db)); reflexivity.
Qed.

(** The events returned are those of a prefix of the rows selected. *)
Lemma getNextEvents_prefix (after : Z) (lag : reflex.Duration) db :
  exists k,
    fst (fst (getNextEvents schema after lag db)) =
    List.map event_of
      (take k
         (select_events (negb (String.eqb (metadataField schema) "")) after
            (if lag >? 0 then Some (reflex.Seconds lag) else None) db)).
Proof.
  rewrite getNextEvents_eq.
  destruct (hd None (faults db)) as [err|].
  - exists 0%nat. reflexivity.
  - match goal with
    | |- context [scan_rows ?rows [] ?d] =>
        destruct (scan_rows_prefix rows [] d) as [Hnil | [k Hk]]
    end.
    + exists 0%nat. rewrite Hnil. reflexivity.
    + exists k. rewrite Hk. reflexivity.
Qed.

Lemma getNextEvents_healthy (after : Z) (lag : reflex.Duration) db :
  healthy db ->
  exists db',
    getNextEvents schema after lag db =
    (List.map event_of
       (select_events (negb (String.eqb (metadataField schema) "")) after
          (if lag >? 0 then Some (reflex.Seconds lag) else None) db),
     None, db') /\
    healthy db' /\ events db' = events db /\ cursors db' = cursors db.
Proof.
  intros Hh. rewrite getNextEvents_eq, (healthy_hd db Hh).
  match goal with
  | |- context [scan_rows ?rows [] ?d] =>
      destruct (scan_rows_healthy rows [] d (healthy_drop_fault db Hh))
        as (db' & Heq & Hh' & Hev & Hcs)
  end.
  exists db'. rewrite Heq. auto.
Qed.

Lemma ID_event_of (rows : list erow) :
  List.map reflex.ID (List.map event_of rows) =
  List.map pretty (List.map row_id rows).
Proof. rewrite !List.map_map. reflexivity. Qed.

(** C2: under the primary key of the events table, [getNextEvents] returns
    events whose ids are greater than [after] and strictly ascending, and
    1000 of them at most, whatever the driver does; on a healthy store it
    returns as many events as the query selects up to 1000 and, when no
    event has an id greater than [after], the empty sequence and no
    error. *)
Theorem getNextEvents_batch (after : Z) (lag : reflex.Duration) db :
  primary_key db ->
  (exists ids : list Z,
      List.map reflex.ID (fst (fst (getNextEvents schema after lag db))) =
        List.map pretty ids /\
      Forall (fun i => after < i) ids /\
      StronglySorted Z.lt ids /\
      (length (fst (fst (getNextEvents schema after lag db))) <= 1000)%nat) /\
  (healthy db ->
   length (fst (fst (getNextEvents schema after lag db))) =
     Nat.min 1000
       (length
          (List.filter
             (selected db after (if lag >? 0 then Some (reflex.Seconds lag) else None))
             (events db)))) /\
  (healthy db ->
   (forall r, In r (events db) -> row_id r <= after) ->
   fst (getNextEvents schema after lag db) = ([], None)).
Proof.
  intros Hpk.
  set (wm := negb (String.eqb (metadataField schema) "")).
  set (la := if lag >? 0 then Some (reflex.Seconds lag) else None).
  split; [|split].
  - destruct (getNextEvents_prefix after lag db) as [k Hk].
    fold wm la in Hk. rewrite Hk.
    exists (List.map row_id (take k (select_events wm after la db))).
    split; [apply ID_event_of|]. split; [|split].
    + apply Forall_forall. intros i Hi.
      apply list_elem_of_In, in_map_iff in Hi. destruct Hi as (r & <- & Hin).
      apply list_elem_of_In, (subseteq_take k) in Hin.
      pose proof (select_events_selected wm after la db) as Hsel.
      rewrite Forall_forall in Hsel. specialize (Hsel r Hin).
      unfold selected in Hsel. apply andb_true_iff in Hsel.
      destruct Hsel as [Hgt _]. apply Z.gtb_lt in Hgt. exact Hgt.
    + rewrite <- firstn_map. apply StronglySorted_take.
      apply select_events_ascending. exact Hpk.
    + rewrite length_map, length_take, select_events_length. lia.
  - intros Hh.
    destruct (getNextEvents_healthy after lag db Hh) as (db' & Heq & _).
    fold wm la in Heq. rewrite Heq. simpl.
    rewrite length_map. apply select_events_length.
  - intros Hh Hnone.
    destruct (getNextEvents_healthy after lag db Hh) as (db' & Heq & _).
    fold wm la in Heq. rewrite Heq. simpl.
    rewrite select_events_none; [reflexivity|].
    intros r Hin. unfold selected.
    rewrite Z.gtb_ltb.
    replace (after <? row_id r) with false; [reflexivity|].
    symmetry. apply Z.ltb_ge, Hnone, Hin.
Qed.



(** *** [getLatestID] and the inserter *)

Lemma max_id_spec (rows : list erow) :
  match max_id rows with
  | None => rows = []
  | Some m =>
      In m (List.map row_id rows) /\
      forall r, In r rows -> row_id r <= m
  end.
Proof.
  induction rows as [|r rows IH]; simpl; [reflexivity|].
  destruct (max_id rows) as [m|].
  - destruct IH as [Hin Hmax]. split.
    + destruct (Z.max_spec (row_id r) m) as [[_ ->]|[_ ->]]; auto.
    + intros r' [<-|Hr']; [lia|]. specialize (Hmax r' Hr'). lia.
  - subst rows. split; [auto|]. intros r' [<-|[]]. lia.
Qed.

(** C6: on a healthy store [getLatestID] returns no error and the greatest
    id of the events table: an id of the table that no id of the table
    exceeds; it returns 0 when the table is empty, the NULL of the query
    being read as 0. *)
Theorem getLatestID_greatest db :
  healthy db ->
  exists id : Z,
    getLatestID schema db = (id, None, drop_fault db) /\
    (events db = [] -> id = 0) /\
    (events db <> [] ->
     In id (List.map row_id (events db)) /\
     forall r, In r (events db) -> row_id r <= id).
Proof.
  intros Hh. unfold getLatestID, bind, ret.
  rewrite QueryRow_max_id_eq, (healthy_hd db Hh).
  pose proof (max_id_spec (events db)) as Hmax.
  destruct (max_id (events db)) as [m|]; simpl.
  - exists m. split; [reflexivity|]. split; [|auto].
    intros Hnil. rewrite Hnil in Hmax. destruct Hmax as [[] _].
  - exists 0. split; [reflexivity|]. split; [auto | congruence].
Qed.

(** The primary key of the events table survives every call of the
    inserter, the ids in use staying below the counter. *)
Lemma makeDefaultInserter_primary_key
    {T : Type} `{reflex.EventType T}
    (foreignID : string) (typ : T) (metadata : option (list Byte.byte)) db :
  primary_key db -> fresh_ids db ->
  primary_key (snd (makeDefaultInserter schema foreignID typ metadata db)) /\
  fresh_ids (snd (makeDefaultInserter schema foreignID typ metadata db)).
Proof.
  intros Hpk Hfresh. unfold makeDefaultInserter.
  assert (Hexec : forall md,
             primary_key (snd (ExecContext
                (InsertEvent foreignID (reflex.ReflexType typ) md) db)) /\
             fresh_ids (snd (ExecContext
                (InsertEvent foreignID (reflex.ReflexType typ) md) db))).
  { intros md. rewrite ExecContext_eq.
    destruct (hd None (faults db)); [split; assumption|].
    unfold primary_key, fresh_ids in *. simpl. split.
    - rewrite List.map_app. simpl. apply NoDup_app.
      split; [exact Hpk|]. split; [|apply NoDup_singleton].
      intros i Hi Hi'. apply list_elem_of_In in Hi'. destruct Hi' as [<-|[]].
      apply list_elem_of_In, in_map_iff in Hi. destruct Hi as (r & Hr & Hin).
      rewrite Forall_forall in Hfresh.
      apply list_elem_of_In, Hfresh in Hin. lia.
    - apply Forall_app. split.
      + eapply Forall_impl; [exact Hfresh|]. simpl. intros r Hr. lia.
      + apply Forall_singleton. simpl. lia. }
  destruct (negb (String.eqb (metadataField schema) "")).
  - unfold bind, ret. specialize (Hexec (Some metadata)).
    destruct (ExecContext _ db). exact Hexec.
  - destruct (negb (is_nil metadata)); [split; assumption|].
    unfold bind, ret. specialize (Hexec None).
    destruct (ExecContext _ db). exact Hexec.
Qed.

(** C3: on a schema without a metadata column, the inserter rejects a
    non-nil metadata with the error "metadata not enabled" and calls the
    driver not at all, the database being as before; with a nil metadata
    it runs the insert statement and returns its outcome, which on a
    healthy store is no error and one more row in the events table. *)
Theorem makeDefaultInserter_metadata_gate
    {T : Type} `{reflex.EventType T}
    (foreignID : string) (typ : T) (md : list Byte.byte) db :
  metadataField schema = "" ->
  makeDefaultInserter schema foreignID typ (Some md) db =
    (Some (ErrNew "metadata not enabled" []), db) /\
  makeDefaultInserter schema foreignID typ None db =
    (Wrap (err_of (fst (ExecContext
                          (InsertEvent foreignID (reflex.ReflexType typ) None) db)))
       "insert error" [],
     snd (ExecContext (InsertEvent foreignID (reflex.ReflexType typ) None) db)) /\
  (healthy db ->
   exists db',
     makeDefaultInserter schema foreignID typ None db = (None, db') /\
     events db' =
       events db ++
         [{| row_id := auto_increment db; row_foreign_id := foreignID;
             row_timestamp := now_6 db; row_type := reflex.ReflexType typ;
             row_metadata := None |}] /\
     cursors db' = cursors db).
Proof.
  intros Hoff. unfold makeDefaultInserter. rewrite Hoff. simpl.
  split; [reflexivity|]. split.
  - unfold bind, ret.
    destruct (ExecContext _ db) as [r db']. reflexivity.
  - intros Hh. unfold bind, ret. rewrite ExecContext_eq, (healthy_hd db Hh).
    simpl. eexists. split; [reflexivity|]. split; reflexivity.
Qed.

End Fetch.

End EventLog.

End Driver.

Lemma setCursor_never_regresses_witness :
  let db1 := snd (setCursor int_cursors "c" "5" empty_db) in
  exists db2,
    setCursor int_cursors "c" "3" db1 =
      (Returns (Some (ErrWrap dup_entry
                        "attempted to set cursor <= existing cursor"
                        [KS "consumer" "c"; KS "cursor" "3"])), db2) /\
    cursors db2 = cursors db1 /\
    fst (getCursor int_cursors "c" db2) = ("5", None).
Proof.
  intros db1.
  destruct (@setCursor_never_regresses Z _ int_cursors) as [_ Hscenario].
  apply (Hscenario "c" "5" "3" 5 3 empty_db db1).
  - apply NoDup_nil_2.
  - reflexivity.
  - reflexivity.
  - reflexivity.
  - reflexivity.
  - apply Forall_nil_2.
Defined.

Lemma getCursor_absent_witness :
  getCursor int_cursors "c" empty_db = ("", None, drop_fault empty_db).
Proof.
  apply getCursor_absent.
  - apply Forall_nil_2.
  - reflexivity.
Defined.

Lemma sample_db_primary_key : primary_key sample_db.
Proof.
  unfold primary_key. simpl.
  repeat (apply NoDup_cons; split;
          [rewrite list_elem_of_In; simpl; lia|]).
  apply NoDup_nil_2.
Qed.

Lemma sample_db_healthy : healthy sample_db.
Proof. apply Forall_nil_2. Qed.

Lemma getNextEvents_batch_witness :
  (exists ids : list Z,
      List.map reflex.ID (fst (fst (getNextEvents plain_events 1 0 sample_db))) =
        List.map pretty ids /\
      Forall (fun i => 1 < i) ids /\
      StronglySorted Z.lt ids /\
      Nat.le (length (fst (fst (getNextEvents plain_events 1 0 sample_db)))) 1000) /\
  length (fst (fst (getNextEvents plain_events 1 0 sample_db))) = 2%nat /\
  fst (getNextEvents plain_events 3 0 sample_db) = ([], None).
Proof.
  destruct (getNextEvents_batch plain_events 1 0 sample_db sample_db_primary_key)
    as (Hids & Hlen & _).
  destruct (getNextEvents_batch plain_events 3 0 sample_db sample_db_primary_key)
    as (_ & _ & Hnone).
  split; [exact Hids|]. split.
  - rewrite (Hlen sample_db_healthy). reflexivity.
  - apply Hnone; [exact sample_db_healthy|].
    intros r Hin. simpl in Hin.
    destruct Hin as [<-|[<-|[<-|[]]]]; simpl; lia.
Defined.


Lemma getLatestID_greatest_witness :
  exists id : Z,
    getLatestID plain_events sample_db = (id, None, drop_fault sample_db) /\
    (events sample_db = [] -> id = 0) /\
    (events sample_db <> [] ->
     In id (List.map row_id (events sample_db)) /\
     forall r, In r (events sample_db) -> row_id r <= id).
Proof. apply getLatestID_greatest. exact sample_db_healthy. Defined.

Lemma makeDefaultInserter_metadata_gate_witness :
  makeDefaultInserter plain_events "order-10" (1 : eventType)
    (Some [Byte.x01]) sample_db =
    (Some (ErrNew "metadata not enabled" []), sample_db) /\
  exists db',
    makeDefaultInserter plain_events "order-10" (1 : eventType) None sample_db =
      (None, db') /\
    List.map row_id (events db') = [3; 1; 2; 4].
Proof.
  destruct (makeDefaultInserter_metadata_gate plain_events "order-10"
              (1 : eventType) [Byte.x01] sample_db eq_refl)
    as (Hreject & _ & Haccept).
  split; [exact Hreject|].
  destruct (Haccept sample_db_healthy) as (db' & Hins & Hev & _).
  exists db'. split; [exact Hins|]. rewrite Hev. reflexivity.
Defined.

End store_proofs.

(** ** More on the error classifiers *)

Module classifier_facts.
Import rsql.

(** X1: each classifier returns true exactly for the MySQL error numbers it
    names, read on the first MySQL error of the chain of causes: 1062 for a
    duplicate entry, 1290 or 1142, 1143, 1370 for a rejected write; no error
    is both a duplicate entry and a rejected write. *)
Theorem classifiers_exact (e : error) :
  (isMySQLErrDupEntry (Some e) = Returns true <->
   exists m, As_MySQLError e = Some (Some (1062, m))) /\
  (isMySQLErrCantWrite (Some e) = Returns true <->
   exists n m, As_MySQLError e = Some (Some (n, m)) /\
               (n = 1290 \/ n = 1142 \/ n = 1143 \/ n = 1370)) /\
  (isMySQLErrDupEntry (Some e) = Returns true ->
   isMySQLErrCantWrite (Some e) = Returns false).
Proof.
  unfold isMySQLErrCantWrite, isMySQLErrReadOnly, isMySQLErrNoAccess,
    isMySQLErrDupEntry, isMySQLErr.
  destruct (As_MySQLError e) as [[[n m]|]|]; simpl.
  - split; [|split].
    + destruct (Z.eqb_spec n 1062) as [->|Hne].
      * split; eauto.
      * split; [discriminate | intros [m' [= Hn _]]; contradiction].
    + destruct (Z.eqb_spec n 1290) as [->|H1]; simpl.
      { split; [intros _; exists 1290, m; auto | reflexivity]. }
      destruct (Z.eqb_spec n 1142) as [->|H2].
      { split; [intros _; exists 1142, m; auto | reflexivity]. }
      destruct (Z.eqb_spec n 1143) as [->|H3].
      { split; [intros _; exists 1143, m; auto | reflexivity]. }
      destruct (Z.eqb_spec n 1370) as [->|H4].
      { split; [intros _; exists 1370, m; auto | reflexivity]. }
      split; [discriminate|].
      intros (n' & m' & [= <- _] & Hn). lia.
    + destruct (Z.eqb_spec n 1062) as [->|Hne]; [reflexivity | discriminate].
  - split; [|split].
    + split; [discriminate | intros [m [=]]].
    + split; [discriminate | intros (n & m & [=] & _)].
    + discriminate.
  - split; [|split].
    + split; [discriminate | intros [m [=]]].
    + split; [discriminate | intros (n & m & [=] & _)].
    + discriminate.
Qed.

End classifier_facts.

(** ** More on the cursor store *)

Module cursor_facts.
Import rsql store_proofs.

Section CursorStore.

Context {V : Type} `{CursorRepr V}.
Variable schema : ctableSchema V.
Implicit Types (db : DB V) (id k : string) (cs : list (crow V)).

Lemma update_other (c : V) id (t : reflex.Time) k cs :
  k <> id ->
  stored_in k (List.map (update_row c id t) cs) = stored_in k cs.
Proof.
  intros Hne. unfold stored_in. induction cs as [|r cs IH]; [reflexivity|].
  cbn [List.map List.find]. rewrite upd_has_cursor_row.
  destruct (has_cursor_row k r) eqn:Hk; [|exact IH].
  unfold update_row, guard_hit.
  apply has_cursor_row_iff in Hk.
  destruct (String.eqb_spec (cur_id r) id) as [Heq|_]; [congruence|].
  reflexivity.
Qed.

Lemma insert_other (c : V) id (t : reflex.Time) k cs :
  k <> id ->
  stored_in k (cs ++ [{| cur_id := id; cur_cursor := c; cur_timestamp := t |}]) =
  stored_in k cs.
Proof.
  intros Hne. unfold stored_in. induction cs as [|r cs IH]; simpl.
  - unfold has_cursor_row; simpl.
    destruct (String.eqb_spec id k) as [Heq|_]; [congruence | reflexivity].
  - destruct (has_cursor_row k r); [reflexivity | exact IH].
Qed.

Lemma hits_at_most_one (c : V) id cs :
  NoDup (List.map cur_id cs) ->
  (length (List.filter (guard_hit c id) cs) <= 1)%nat.
Proof.
  induction cs as [|r cs IH]; simpl; [lia|].
  intros Hnd. apply NoDup_cons in Hnd as [Hnotin Hnd].
  destruct (guard_hit c id r) eqn:Hg; [|auto].
  destruct (update_no_hit c id 0 cs) as [-> _]; [|simpl; lia].
  intros r' Hin. unfold guard_hit in *. apply andb_false_iff. left.
  apply andb_true_iff in Hg as [Hid _]. apply String.eqb_eq in Hid.
  apply not_true_is_false. intros Hr'. apply String.eqb_eq in Hr'.
  apply Hnotin. rewrite Hid, <- Hr'. apply list_elem_of_In, in_map. exact Hin.
Qed.

(** X3: on a healthy store that keeps the unique key, [setCursor] has three
    outcomes only.  When the cursor does not cast to the cursor type, it
    returns the error of the cast and the store is untouched.  When it casts
    and the consumer has no row, or a cursor that the store compares less
    than the new one, it returns nil and the new cursor is stored.
    Otherwise it returns the duplicate-key error wrapped as "attempted to
    set cursor <= existing cursor" and the cursors table is as before. *)
Theorem setCursor_outcomes id (cursor : string) db :
  healthy db -> unique_key db ->
  match Cast (cursorType_ schema) cursor with
  | inl e => setCursor schema id cursor db = (Returns (Some e), db)
  | inr c =>
      exists db',
        setCursor schema id cursor db =
          (Returns
             (if advances c id db then None
              else Some (ErrWrap dup_entry
                           "attempted to set cursor <= existing cursor"
                           [KS "consumer" id; KS "cursor" cursor])), db') /\
        (if advances c id db then stored id db' = Some c
         else cursors db' = cursors db) /\
        healthy db' /\ unique_key db'
  end.
Proof.
  intros Hh Huk.
  destruct (Cast (cursorType_ schema) cursor) as [e|c] eqn:HCast.
  { unfold setCursor, ret. rewrite HCast. reflexivity. }
  unfold advances.
  destruct (stored id db) as [v|] eqn:Hst.
  - destruct (cursor_lt v c) eqn:Hlt.
    + destruct (setCursor_advances schema id cursor c db Hh Huk HCast)
        as (db' & Hset & Hst' & Hh'); [rewrite Hst; exact Hlt|].
      exists db'. split; [exact Hset|]. split; [exact Hst'|].
      split; [exact Hh'|].
      exact (setCursor_unique_key schema id cursor db _ db' Huk Hset).
    + destruct (setCursor_regression schema id cursor c v db Hh Huk Hst HCast Hlt)
        as (db' & Hset & Hsame & Hh').
      exists db'. split; [exact Hset|]. split; [exact Hsame|].
      split; [exact Hh'|].
      unfold unique_key. rewrite Hsame. exact Huk.
  - destruct (setCursor_advances schema id cursor c db Hh Huk HCast)
      as (db' & Hset & Hst' & Hh'); [rewrite Hst; exact I|].
    exists db'. split; [exact Hset|]. split; [exact Hst'|].
    split; [exact Hh'|].
    exact (setCursor_unique_key schema id cursor db _ db' Huk Hset).
Qed.

(** X4: a cursor that [setCursor] lets in is the cursor that [getCursor]
    reads back: on a healthy store, for a consumer with no row or with a
    lesser cursor, setting a cursor and getting it returns the string of the
    cast cursor and no error. *)
Theorem setCursor_getCursor id (cursor : string) (c : V) db :
  healthy db -> unique_key db ->
  Cast (cursorType_ schema) cursor = inr c ->
  advances c id db = true ->
  exists db',
    setCursor schema id cursor db = (Returns None, db') /\
    fst (getCursor schema id db') = (cursor_string c, None).
Proof.
  intros Hh Huk HCast Hadv.
  destruct (setCursor_advances schema id cursor c db Hh Huk HCast)
    as (db' & Hset & Hst' & Hh').
  { unfold advances in Hadv. destruct (stored id db); [exact Hadv | exact I]. }
  exists db'. split; [exact Hset|].
  rewrite (getCursor_healthy schema id db' Hh'), Hst'. reflexivity.
Qed.

(** X5: whatever it returns and whatever the driver does, [setCursor] leaves
    the events table, the id counter and the clock alone, and the cursor of
    every other consumer as it was. *)
Theorem setCursor_touches_one_consumer id (cursor : string) db err db' :
  setCursor schema id cursor db = (err, db') ->
  events db' = events db /\ auto_increment db' = auto_increment db /\
  clock db' = clock db /\
  forall k, k <> id -> stored k db' = stored k db.
Proof.
  intros Hset.
  destruct (Cast (cursorType_ schema) cursor) as [e|c] eqn:HCast.
  { unfold setCursor in Hset. rewrite HCast in Hset.
    injection Hset as _ <-. auto. }
  rewrite (setCursor_eq schema id cursor c db HCast) in Hset. cbv zeta in Hset.
  assert (Hupd : forall k, k <> id ->
             stored_in k (List.map (update_row c id (now_0 db)) (cursors db)) =
             stored_in k (cursors db))
    by (intros k Hk; apply update_other; exact Hk).
  destruct (hd None (faults db)).
  { injection Hset as _ <-. auto. }
  destruct (hd None (tail (faults db))).
  { injection Hset as _ <-. repeat split; auto. }
  destruct (_ >? 1).
  { injection Hset as _ <-. repeat split; auto. }
  destruct (_ =? 1).
  { injection Hset as _ <-. repeat split; auto. }
  cbn [faults cursors] in Hset.
  destruct (hd None (tail (tail (faults db)))).
  { injection Hset as _ <-. repeat split; auto. }
  destruct (existsb _ _).
  { injection Hset as _ <-. repeat split; auto. }
  injection Hset as _ <-. repeat split; auto.
  intros k Hk. unfold stored; simpl.
  rewrite insert_other by exact Hk. apply Hupd. exact Hk.
Qed.

(** X6: under the unique key of the cursors table [setCursor] never reports
    "invalid rows affected error", whatever the driver does, and it keeps
    the unique key. *)
Theorem setCursor_keeps_unique_key id (cursor : string) (c : V) db err db' :
  unique_key db ->
  Cast (cursorType_ schema) cursor = inr c ->
  setCursor schema id cursor db = (err, db') ->
  unique_key db' /\
  err <> Returns (New "invalid rows affected error"
                    [KS "consumer" id; KS "cursor" cursor]).
Proof.
  intros Huk HCast Hset.
  split; [exact (setCursor_unique_key schema id cursor db err db' Huk Hset)|].
  rewrite (setCursor_eq schema id cursor c db HCast) in Hset. cbv zeta in Hset.
  pose proof (hits_at_most_one c id (cursors db) Huk) as Hle.
  unfold Wrap, New in *.
  destruct (hd None (faults db)); [injection Hset as <- _; discriminate|].
  destruct (hd None (tail (faults db))); [injection Hset as <- _; discriminate|].
  destruct (_ >? 1) eqn:Hgt; [apply Z.gtb_lt in Hgt; lia|].
  destruct (_ =? 1); [injection Hset as <- _; discriminate|].
  cbn [faults cursors] in Hset.
  destruct (hd None (tail (tail (faults db)))) as [e|].
  { destruct (isMySQLErrDupEntry (Some e)) as [[|]|];
      injection Hset as <- _; discriminate. }
  destruct (existsb _ _); injection Hset as <- _; discriminate.
Qed.

(** X7: when the guarded update hits more than one row, which takes a table
    without its unique key, [setCursor] reports "invalid rows affected
    error" after the update has run: every row it hit holds the new cursor
    already. *)
Theorem setCursor_invalid_rows id (cursor : string) (c : V) db :
  healthy db ->
  Cast (cursorType_ schema) cursor = inr c ->
  (1 < length (List.filter (guard_hit c id) (cursors db)))%nat ->
  exists db',
    setCursor schema id cursor db =
      (Returns (New "invalid rows affected error"
                  [KS "consumer" id; KS "cursor" cursor]), db') /\
    cursors db' = List.map (update_row c id (now_0 db)) (cursors db) /\
    forall r, In r (cursors db) -> guard_hit c id r = true ->
              In {| cur_id := cur_id r; cur_cursor := c;
                    cur_timestamp := now_0 db |} (cursors db').
Proof.
  intros Hh HCast Hmany.
  rewrite (setCursor_eq schema id cursor c db HCast). cbv zeta.
  unfold healthy in Hh.
  pose proof (healthy_faults_tail _ Hh) as Hh1.
  rewrite (healthy_faults_hd _ Hh), (healthy_faults_hd _ Hh1).
  replace (Z.of_nat (length (List.filter (guard_hit c id) (cursors db))) >? 1)
    with true by (symmetry; apply Z.gtb_lt; lia).
  eexists. split; [reflexivity|]. split; [reflexivity|].
  intros r Hin Hg. simpl. apply in_map_iff. exists r. split; [|exact Hin].
  unfold update_row. rewrite Hg. reflexivity.
Qed.

End CursorStore.

Lemma setCursor_outcomes_witness :
  let db1 : DB Z :=
    {| events := []; auto_increment := 1;
       cursors := [ {| cur_id := "c"; cur_cursor := 7; cur_timestamp := 0 |} ];
       clock := 3000000000; faults := [] |} in
  (exists db',
     setCursor int_cursors "c" "7" empty_db = (Returns None, db') /\
     stored "c" db' = Some 7 /\ healthy db' /\ unique_key db') /\
  (exists db',
     setCursor int_cursors "c" "5" db1 =
       (Returns (Some (ErrWrap dup_entry
                         "attempted to set cursor <= existing cursor"
                         [KS "consumer" "c"; KS "cursor" "5"])), db') /\
     cursors db' = cursors db1 /\ healthy db' /\ unique_key db') /\
  setCursor int_cursors "c" "seven" db1 =
    (Returns (Some (ErrDriver "strconv.ParseInt: invalid syntax")), db1).
Proof.
  intros db1.
  assert (Hh1 : healthy db1) by apply Forall_nil_2.
  assert (Huk1 : unique_key db1)
    by (apply NoDup_cons_2; [apply not_elem_of_nil | apply NoDup_nil_2]).
  split; [|split].
  - exact (setCursor_outcomes int_cursors "c" "7" empty_db
             (Forall_nil_2 _) (NoDup_nil_2 (A := string))).
  - exact (setCursor_outcomes int_cursors "c" "5" db1 Hh1 Huk1).
  - exact (setCursor_outcomes int_cursors "c" "seven" db1 Hh1 Huk1).
Defined.

Lemma setCursor_getCursor_witness :
  exists db',
    setCursor int_cursors "c" "12" empty_db = (Returns None, db') /\
    fst (getCursor int_cursors "c" db') = ("12", None).
Proof.
  destruct (setCursor_getCursor int_cursors "c" "12" 12 empty_db)
    as (db' & Hset & Hget).
  - apply Forall_nil_2.
  - apply NoDup_nil_2.
  - reflexivity.
  - reflexivity.
  - exists db'. split; [exact Hset|]. rewrite Hget. reflexivity.
Defined.

Lemma setCursor_touches_one_consumer_witness :
  let db1 := snd (setCursor int_cursors "a" "4" empty_db) in
  let db2 := snd (setCursor int_cursors "b" "9" db1) in
  events db2 = events db1 /\ auto_increment db2 = auto_increment db1 /\
  clock db2 = clock db1 /\
  forall k, k <> "b" -> stored k db2 = stored k db1.
Proof.
  intros db1 db2.
  apply (setCursor_touches_one_consumer int_cursors "b" "9" db1 (Returns None) db2).
  reflexivity.
Defined.

Lemma setCursor_keeps_unique_key_witness :
  let out := setCursor int_cursors "c" "7" empty_db in
  unique_key (snd out) /\
  fst out <> Returns (New "invalid rows affected error"
                        [KS "consumer" "c"; KS "cursor" "7"]).
Proof.
  intros out.
  apply (setCursor_keeps_unique_key int_cursors "c" "7" 7 empty_db).
  - apply NoDup_nil_2.
  - reflexivity.
  - reflexivity.
Defined.

Lemma setCursor_invalid_rows_witness :
  let db :=
    {| events := []; auto_increment := 1;
       cursors := [ {| cur_id := "c"; cur_cursor := 1; cur_timestamp := 0 |};
                    {| cur_id := "c"; cur_cursor := 2; cur_timestamp := 0 |} ];
       clock := 3000000000; faults := [] |} in
  exists db',
    setCursor int_cursors "c" "5" db =
      (Returns (New "invalid rows affected error"
                  [KS "consumer" "c"; KS "cursor" "5"]), db') /\
    List.map cur_cursor (cursors db') = [5; 5].
Proof.
  intros db.
  destruct (setCursor_invalid_rows int_cursors "c" "5" 5 db) as (db' & Hset & Hcs & _).
  - apply Forall_nil_2.
  - reflexivity.
  - simpl. lia.
  - exists db'. split; [exact Hset|]. rewrite Hcs. reflexivity.
Defined.

End cursor_facts.

(** ** More on the event log *)

Module event_facts.
Import rsql store_proofs.

#[local] Existing Instance id_le_transitive.
#[local] Existing Instance id_le_total.

Section EventLog.

Context {V : Type} `{CursorRepr V}.
Implicit Types (db : DB V) (rows : list erow) (r : erow).

Lemma same_store_refl db : same_store db db.
Proof. repeat split. Qed.

Lemma same_store_trans db1 db2 db3 :
  same_store db1 db2 -> same_store db2 db3 -> same_store db1 db3.
Proof.
  unfold same_store. intros (-> & -> & -> & ->) (-> & -> & -> & ->).
  repeat split.
Qed.

Lemma same_store_drop_fault db : same_store db (drop_fault db).
Proof. repeat split. Qed.

Lemma scan_rows_same_store rows :
  forall (el : list reflex.Event) db,
    same_store db (snd (scan_rows rows el db)).
Proof.
  induction rows as [|row rest IH]; intros el db.
  - simpl. unfold bind, ret. rewrite next_fault_eq. apply same_store_drop_fault.
  - cbn [scan_rows]. unfold bind, ret. rewrite next_fault_eq.
    destruct (hd None (faults db)); [apply same_store_drop_fault|].
    rewrite scan_eq.
    destruct (hd None (faults (drop_fault db))).
    + repeat split.
    + eapply same_store_trans; [|apply IH]. repeat split.
Qed.

(** A loop over the rows that ends without an error has scanned them all. *)
Lemma scan_rows_complete rows :
  forall (el res : list reflex.Event) db db',
    scan_rows rows el db = (res, None, db') ->
    res = el ++ List.map event_of rows.
Proof.
  induction rows as [|row rest IH]; intros el res db db'.
  - simpl. unfold bind, ret. rewrite next_fault_eq.
    intros [= <- _ _]. rewrite app_nil_r. reflexivity.
  - cbn [scan_rows]. unfold bind, ret. rewrite next_fault_eq.
    destruct (hd None (faults db)); [discriminate|].
    rewrite scan_eq.
    destruct (hd None (faults (drop_fault db))); [discriminate|].
    intros Hscan. apply IH in Hscan. rewrite Hscan, <- app_assoc. reflexivity.
Qed.

Lemma row_of_id rows r r' :
  NoDup (List.map row_id rows) ->
  In r rows -> In r' rows -> row_id r = row_id r' -> r = r'.
Proof.
  induction rows as [|r0 rows IH]; simpl; [tauto|].
  intros Hnd Hr Hr' Hid. apply NoDup_cons in Hnd as [Hnotin Hnd].
  destruct Hr as [->|Hr]; destruct Hr' as [->|Hr']; auto.
  - exfalso. apply Hnotin. rewrite Hid. apply list_elem_of_In, in_map. exact Hr'.
  - exfalso. apply Hnotin. rewrite <- Hid. apply list_elem_of_In, in_map. exact Hr.
Qed.

Lemma candidates_In db (after : Z) (lag : option Q) r :
  In r (candidates db after lag) <->
  In r (events db) /\ selected db after lag r = true.
Proof.
  unfold candidates. rewrite <- filter_In, <- !list_elem_of_In.
  rewrite merge_sort_Permutation. reflexivity.
Qed.

Lemma candidates_sorted db (after : Z) (lag : option Q) :
  StronglySorted id_le (candidates db after lag).
Proof. apply StronglySorted_merge_sort; apply _. Qed.

Lemma candidates_NoDup db (after : Z) (lag : option Q) :
  primary_key db -> NoDup (List.map row_id (candidates db after lag)).
Proof.
  intros Hpk. unfold candidates.
  rewrite (Permutation_map row_id (merge_sort_Permutation id_le _)).
  apply NoDup_ids_filter. exact Hpk.
Qed.

(** A row of a list in strictly ascending order of id is in the first [n]
    rows, or comes after [n] rows of lesser ids. *)
Lemma take_or_later (n : nat) rows r :
  StronglySorted id_le rows -> NoDup (List.map row_id rows) ->
  In r rows ->
  In r (take n rows) \/
  (length (take n rows) = n /\
   In r (drop n rows) /\
   forall x, In x (take n rows) -> row_id x < row_id r).
Proof.
  intros Hs Hnd Hin.
  rewrite <- (take_drop n rows) in Hin, Hs, Hnd.
  apply in_app_or in Hin. destruct Hin as [Hin|Hin]; [left; exact Hin|].
  right. split; [|split; [exact Hin|]].
  - rewrite length_take. destruct (Nat.le_gt_cases n (length rows)) as [|Hlt]; [lia|].
    rewrite drop_ge in Hin by lia. destruct Hin.
  - intros x Hx.
    assert (Hle : id_le x r).
    { eapply StronglySorted_app_1_elem_of; [exact Hs| |];
        apply list_elem_of_In; assumption. }
    rewrite List.map_app in Hnd. apply NoDup_app in Hnd as (_ & Hdisj & _).
    assert (Hne : row_id x <> row_id r).
    { intros Heq. apply (Hdisj (row_id x)).
      - apply list_elem_of_In, in_map. exact Hx.
      - rewrite Heq. apply list_elem_of_In, in_map. exact Hin. }
    unfold id_le in Hle. lia.
Qed.

Section Fetch.

Variable schema : etableSchema.

Abbreviation wm := (negb (String.eqb (metadataField schema) EmptyString)).
Abbreviation la lag := (if (lag >? 0)%Z then Some (reflex.Seconds lag%Z) else None).

Lemma getNextEvents_same_store (after : Z) (lag : reflex.Duration) db :
  same_store db (snd (getNextEvents schema after lag db)).
Proof.
  rewrite getNextEvents_eq.
  destruct (hd None (faults db)); [apply same_store_drop_fault|].
  eapply same_store_trans; [apply same_store_drop_fault|].
  apply scan_rows_same_store.
Qed.

(** X8: the read accessors [getCursor], [getLatestID] and [getNextEvents]
    never write: whatever the driver does, the two tables, the id counter
    and the clock are afterwards as before. *)
Theorem reads_never_write (cschema : ctableSchema V) (id : string)
    (after : Z) (lag : reflex.Duration) db :
  same_store db (snd (getCursor cschema id db)) /\
  same_store db (snd (getLatestID schema db)) /\
  same_store db (snd (getNextEvents schema after lag db)).
Proof.
  split; [|split].
  - unfold getCursor, bind, ret. rewrite QueryRow_cursor_eq.
    destruct (hd None (faults db)) as [e|].
    + destruct (Is_ErrNoRows e); apply same_store_drop_fault.
    + destruct (List.find _ _); apply same_store_drop_fault.
  - unfold getLatestID, bind, ret. rewrite QueryRow_max_id_eq.
    destruct (hd None (faults db)); apply same_store_drop_fault.
  - apply getNextEvents_same_store.
Qed.

Lemma getNextEvents_nil_error (after : Z) (lag : reflex.Duration) db el db' :
  getNextEvents schema after lag db = (el, None, db') ->
  el = List.map event_of
         (List.map (project wm) (take 1000 (candidates db after (la lag)))).
Proof.
  rewrite getNextEvents_eq.
  destruct (hd None (faults db)); [discriminate|].
  intros Hscan. apply scan_rows_complete in Hscan. exact Hscan.
Qed.

(** X9: a nil error of [getNextEvents] vouches for the whole batch: the
    events returned are then those of all the rows that the query selects,
    in the order of their ids, up to the limit of 1000; a shorter result
    comes with an error only. *)
Theorem getNextEvents_nil_error_complete
    (after : Z) (lag : reflex.Duration) db el db' :
  getNextEvents schema after lag db = (el, None, db') ->
  el = List.map event_of
         (List.map (project wm) (take 1000 (candidates db after (la lag)))) /\
  length el = Nat.min 1000
                (length (List.filter (selected db after (la lag)) (events db))).
Proof.
  intros Hget. pose proof (getNextEvents_nil_error after lag db el db' Hget) as ->.
  split; [reflexivity|].
  rewrite !length_map, length_take. unfold candidates.
  rewrite (Permutation_length (merge_sort_Permutation id_le _)). reflexivity.
Qed.

(** What a batch without an error holds of a row that the query selects: its
    event, or a full batch of events of lesser ids. *)
Lemma selected_row_served (after : Z) (lag : reflex.Duration) db el db' r :
  getNextEvents schema after lag db = (el, None, db') ->
  primary_key db ->
  In r (events db) ->
  selected db after (la lag) r = true ->
  In (event_of (project wm r)) el \/
  (length el = 1000%nat /\
   Forall (fun e => exists i, reflex.ID e = pretty i /\ i < row_id r) el).
Proof.
  intros Hget Hpk Hin Hsel.
  pose proof (getNextEvents_nil_error after lag db el db' Hget) as ->.
  assert (Hcand : In r (candidates db after (la lag)))
    by (apply candidates_In; auto).
  destruct (take_or_later 1000 _ r (candidates_sorted db after (la lag))
              (candidates_NoDup db after (la lag) Hpk) Hcand)
    as [Htake | (Hlen & _ & Hless)].
  - left. apply in_map, in_map. exact Htake.
  - right. split; [rewrite !length_map; exact Hlen|].
    apply Forall_forall. intros e He.
    apply list_elem_of_In, in_map_iff in He. destruct He as (x' & <- & Hx').
    apply in_map_iff in Hx'. destruct Hx' as (x & <- & Hx).
    exists (row_id x). split; [reflexivity | apply Hless; exact Hx].
Qed.

(** X10: a batch never skips an event: when [getNextEvents] returns no
    error, every row of the table that the query selects has its event in
    the batch, unless the batch is full, of 1000 events, all of lesser ids
    than the row. *)
Theorem getNextEvents_skips_nothing
    (after : Z) (lag : reflex.Duration) db el db' r :
  getNextEvents schema after lag db = (el, None, db') ->
  primary_key db ->
  In r (events db) ->
  selected db after (la lag) r = true ->
  In (event_of (project wm r)) el \/
  (length el = 1000%nat /\
   Forall (fun e => exists i, reflex.ID e = pretty i /\ i < row_id r) el).
Proof. apply selected_row_served. Qed.



(** X12: on a schema without a metadata column every event that
    [getNextEvents] returns has a nil metadata, whatever the rows hold and
    whatever the driver does; on a schema with one, a batch without an
    error carries the metadata of its rows. *)
Theorem getNextEvents_metadata (after : Z) (lag : reflex.Duration) db :
  (metadataField schema = EmptyString ->
   Forall (fun e => reflex.MetaData e = None)
     (fst (fst (getNextEvents schema after lag db)))) /\
  (metadataField schema <> EmptyString ->
   forall el db',
     getNextEvents schema after lag db = (el, None, db') ->
     el = List.map event_of (take 1000 (candidates db after (la lag)))).
Proof.
  split.
  - intros Hoff.
    destruct (getNextEvents_prefix schema after lag db) as [k Hk]. rewrite Hk.
    rewrite Hoff. apply Forall_forall. intros e He.
    apply list_elem_of_In, in_map_iff in He. destruct He as (x & <- & Hx).
    apply list_elem_of_In, (subseteq_take k), list_elem_of_In in Hx.
    unfold select_events in Hx.
    apply in_map_iff in Hx. destruct Hx as (x0 & <- & _). reflexivity.
  - intros Hon el db' Hget.
    pose proof (getNextEvents_nil_error after lag db el db' Hget) as ->.
    destruct (String.eqb_spec (metadataField schema) EmptyString) as [Heq|_];
      [contradiction|].
    simpl. f_equal. rewrite <- (List.map_id (take 1000 _)) at 2.
    apply List.map_ext. intros [i f t ty md]. reflexivity.
Qed.

(** *** Pages *)

Lemma NoDup_of_ids rows : NoDup (List.map row_id rows) -> NoDup rows.
Proof.
  induction rows as [|r rows IH]; simpl; [auto using NoDup_nil_2|].
  intros Hnd. apply NoDup_cons in Hnd as [Hnotin Hnd].
  apply NoDup_cons. split; [|auto].
  intros Hin. apply Hnotin. apply list_elem_of_In, in_map, list_elem_of_In. exact Hin.
Qed.

Lemma take_before_drop (n : nat) rows x y :
  StronglySorted id_le rows -> NoDup (List.map row_id rows) ->
  In x (take n rows) -> In y (drop n rows) -> row_id x < row_id y.
Proof.
  intros Hs Hnd Hx Hy. rewrite <- (take_drop n rows) in Hs, Hnd.
  assert (Hle : id_le x y).
  { eapply StronglySorted_app_1_elem_of; [exact Hs| |];
      apply list_elem_of_In; assumption. }
  rewrite List.map_app in Hnd. apply NoDup_app in Hnd as (_ & Hdisj & _).
  assert (Hne : row_id x <> row_id y).
  { intros Heq. apply (Hdisj (row_id x)).
    - apply list_elem_of_In, in_map. exact Hx.
    - rewrite Heq. apply list_elem_of_In, in_map. exact Hy. }
  unfold id_le in Hle. lia.
Qed.

Lemma last_map {A B : Type} (f : A -> B) (l : list A) :
  last (List.map f l) = option_map f (last l).
Proof.
  induction l as [|x [|y l] IH]; [reflexivity | reflexivity |].
  exact IH.
Qed.

Lemma selected_split db (after : Z) (lag : option Q) r :
  selected db after lag r = true <->
  after < row_id r /\ selected db (row_id r - 1) lag r = true.
Proof.
  unfold selected. rewrite !andb_true_iff, !Z.gtb_lt. split.
  - intros [Hgt Hlag]. split; [exact Hgt|]. split; [lia | exact Hlag].
  - intros [Hgt [_ Hlag]]. split; assumption.
Qed.

(** The rows that follow the last row of a page are the rows that a query
    from the id of that row selects. *)
Lemma candidates_next db (after : Z) (lag : option Q) r :
  primary_key db ->
  last (take 1000 (candidates db after lag)) = Some r ->
  candidates db (row_id r) lag = drop 1000 (candidates db after lag).
Proof.
  intros Hpk Hlast.
  set (c := candidates db after lag) in *.
  pose proof (candidates_sorted db after lag) as Hs. fold c in Hs.
  pose proof (candidates_NoDup db after lag Hpk) as Hnd. fold c in Hnd.
  assert (Hr : In r (take 1000 c)).
  { apply list_elem_of_In, last_Some_elem_of. exact Hlast. }
  assert (Hrc : In r c).
  { apply list_elem_of_In, (subseteq_take 1000), list_elem_of_In. exact Hr. }
  assert (Hdrop : forall x, In x (drop 1000 c) -> In x c).
  { intros x Hx. rewrite <- (take_drop 1000 c). apply in_or_app. right. exact Hx. }
  assert (Hmem : forall x, In x (candidates db (row_id r) lag) <-> In x (drop 1000 c)).
  { intros x. rewrite candidates_In. split.
    - intros [Hin Hsel].
      apply selected_split in Hsel as [Hgt Hlag].
      pose proof Hrc as Hrsel. apply candidates_In in Hrsel as [_ Hrsel].
      apply selected_split in Hrsel as [Hafter _].
      assert (Hxc : In x c).
      { apply candidates_In. split; [exact Hin|].
        apply selected_split. split; [lia | exact Hlag]. }
      destruct (take_or_later 1000 c x Hs Hnd Hxc) as [Htake | (_ & Hd & _)];
        [|exact Hd].
      exfalso. apply last_Some in Hlast as [l' Hl'].
      rewrite Hl' in Htake. apply in_app_or in Htake.
      destruct Htake as [Hx|[<-|[]]]; [|lia].
      assert (Hst : StronglySorted id_le (l' ++ [r])).
      { rewrite <- Hl'. apply StronglySorted_take. exact Hs. }
      assert (Hle : id_le x r).
      { eapply StronglySorted_app_1_elem_of; [exact Hst| |].
        - apply list_elem_of_In. exact Hx.
        - apply list_elem_of_In. left. reflexivity. }
      unfold id_le in Hle. lia.
    - intros Hx. pose proof (Hdrop x Hx) as Hxc.
      apply candidates_In in Hxc as [Hin Hsel]. split; [exact Hin|].
      apply selected_split in Hsel as [_ Hlag].
      apply selected_split. split; [|exact Hlag].
      apply (take_before_drop 1000 c r x Hs Hnd Hr Hx). }
  apply (StronglySorted_unique_strong id_le).
  - intros x1 x2 Hx1 Hx2 H12 H21.
    apply list_elem_of_In, candidates_In in Hx1 as [Hin1 _].
    apply list_elem_of_In, Hdrop, candidates_In in Hx2 as [Hin2 _].
    apply (row_of_id (events db)); [exact Hpk | exact Hin1 | exact Hin2|].
    unfold id_le in *. lia.
  - apply candidates_sorted.
  - rewrite <- (take_drop 1000 c) in Hs.
    apply StronglySorted_app_1_r in Hs. exact Hs.
  - apply NoDup_Permutation.
    + apply NoDup_of_ids, candidates_NoDup. exact Hpk.
    + apply NoDup_of_ids in Hnd. rewrite <- (take_drop 1000 c) in Hnd.
      apply NoDup_app in Hnd as (_ & _ & Hnd). exact Hnd.
    + intros x. rewrite !list_elem_of_In. apply Hmem.
Qed.

Lemma candidates_no_lag db db2 (after : Z) :
  events db2 = events db -> candidates db2 after None = candidates db after None.
Proof. intros Hev. unfold candidates, selected. rewrite Hev. reflexivity. Qed.

(** X13: without a lag filter, paging by the last id loses and repeats
    nothing as long as the events table is not written in between: on a
    healthy store under the primary key, [getNextEvents] with a [lag] that
    is not positive returns a batch without an error, and a later call from
    the id of the last event of that batch, on a healthy store that holds
    the same events, whatever its clock, its cursors and its id counter,
    returns the rows that follow; the two batches together are the events
    of the first 2000 rows with an id above the bound, in the order of their
    ids. *)
Theorem getNextEvents_pages (after : Z) (lag : reflex.Duration) db :
  healthy db -> primary_key db -> lag <= 0 ->
  exists el1 db1,
    getNextEvents schema after lag db = (el1, None, db1) /\
    forall ev L db2,
      last el1 = Some ev -> reflex.ID ev = pretty L ->
      healthy db2 -> events db2 = events db ->
      exists el2 db3,
        getNextEvents schema L lag db2 = (el2, None, db3) /\
        el1 ++ el2 =
          List.map event_of
            (List.map (project wm) (take 2000 (candidates db after None))).
Proof.
  intros Hh Hpk Hlag.
  assert (Hla : (lag >? 0) = false)
    by (rewrite Z.gtb_ltb; apply Z.ltb_ge; exact Hlag).
  destruct (getNextEvents_healthy schema after lag db Hh)
    as (db1 & Hget1 & _).
  rewrite Hla in Hget1.
  eexists. exists db1. split; [exact Hget1|].
  intros ev L db2 Hlast HID Hh2 Hev2.
  destruct (getNextEvents_healthy schema L lag db2 Hh2)
    as (db3 & Hget2 & _).
  rewrite Hla in Hget2.
  eexists. exists db3. split; [exact Hget2|].
  rewrite last_map in Hlast.
  unfold select_events in Hlast. rewrite last_map in Hlast.
  fold (candidates db after None) in Hlast.
  destruct (last (take 1000 (candidates db after None))) as [r|] eqn:Hr;
    [|discriminate].
  simpl in Hlast. injection Hlast as <-. simpl in HID.
  apply (inj pretty) in HID. subst L.
  unfold select_events.
  fold (candidates db after None).
  fold (candidates db2 (row_id r) None).
  rewrite (candidates_no_lag db db2 _ Hev2).
  rewrite (candidates_next db after None r Hpk Hr).
  rewrite <- !List.map_app. do 2 f_equal.
  apply (take_take_drop _ 1000 1000).
Qed.

(** *** Inserting and reading back *)

Section Insert.

Context {T : Type} `{reflex.EventType T}.
Variables (foreignID : string) (typ : T) (metadata : option (list Byte.byte)).

(** The row that the inserter adds to a store. *)
Abbreviation new_row db :=
  {| row_id := auto_increment db; row_foreign_id := foreignID;
     row_timestamp := now_6 db; row_type := reflex.ReflexType typ;
     row_metadata := if wm then metadata else None |}.

(** The inserter takes a metadata when the schema has a metadata column or
    the metadata is nil. *)
Abbreviation accepted :=
  (metadataField schema <> EmptyString \/ metadata = None).

Lemma insert_healthy db :
  healthy db -> accepted ->
  exists db1,
    makeDefaultInserter schema foreignID typ metadata db = (None, db1) /\
    healthy db1 /\
    events db1 = events db ++ [new_row db] /\
    auto_increment db1 = auto_increment db + 1 /\
    cursors db1 = cursors db /\ clock db1 = clock db.
Proof.
  intros Hh Hacc. unfold makeDefaultInserter.
  destruct (String.eqb_spec (metadataField schema) EmptyString) as [Hoff|Hon];
    simpl.
  - destruct Hacc as [Hon | ->]; [contradiction|]. simpl.
    unfold bind, ret. rewrite ExecContext_eq, (healthy_hd db Hh). simpl.
    eexists. split; [reflexivity|].
    split; [apply (healthy_drop_fault db Hh)|]. repeat split.
  - unfold bind, ret. rewrite ExecContext_eq, (healthy_hd db Hh). simpl.
    eexists. split; [reflexivity|].
    split; [apply (healthy_drop_fault db Hh)|]. repeat split.
Qed.

Lemma filter_none {A : Type} (f : A -> bool) (l : list A) :
  (forall x, In x l -> f x = false) -> List.filter f l = [].
Proof.
  induction l as [|x l IH]; simpl; [reflexivity|].
  intros Hno. rewrite (Hno x (or_introl eq_refl)). apply IH.
  intros y Hy. apply Hno. right. exact Hy.
Qed.

(** X14: what is committed is what is fetched: on a healthy store, when the
    inserter has taken an event on a transaction, [getNextEvents] without a
    lag and from a bound that covers the ids in use returns that one event
    once the transaction has committed: its id is the next id of the table
    in base 10, its timestamp the [now(6)] of the store, and its metadata
    the one inserted, or nil on a schema without a metadata column.  When
    the transaction is rolled back instead, it returns no event. *)
Theorem insert_then_getNextEvents (after : Z) (lag : reflex.Duration) db :
  healthy db -> accepted ->
  lag <= 0 ->
  (forall r, In r (events db) -> row_id r <= after) ->
  after < auto_increment db ->
  exists tx,
    in_tx (makeDefaultInserter schema foreignID typ metadata) (BeginTx db) =
      (None, tx) /\
    fst (getNextEvents schema after lag (Commit tx)) =
      ([ {| reflex.ID := pretty (auto_increment db);
            reflex.Type_ := reflex.ReflexType typ;
            reflex.ForeignID := foreignID;
            reflex.Timestamp := now_6 db;
            reflex.MetaData := if wm then metadata else None |} ],
       None) /\
    fst (getNextEvents schema after lag (Rollback tx)) = ([], None).
Proof.
  intros Hh Hacc Hlag Hold Hnew.
  destruct (insert_healthy db Hh Hacc) as (db1 & Hins & Hh1 & Hev & _).
  assert (Hla : (lag >? 0) = false)
    by (rewrite Z.gtb_ltb; apply Z.ltb_ge; exact Hlag).
  assert (Holdsel : forall (d : DB V) r,
             In r (events db) -> selected d after None r = false).
  { intros d r Hr. unfold selected. rewrite andb_true_r, Z.gtb_ltb.
    apply Z.ltb_ge, Hold, Hr. }
  exists {| begun := db; current := db1 |}. split; [|split].
  - unfold in_tx, BeginTx. cbn [current begun]. rewrite Hins. reflexivity.
  - unfold Commit. cbn [current].
    destruct (getNextEvents_healthy schema after lag db1 Hh1)
      as (db2 & Hget & _).
    rewrite Hget, Hla. cbn [fst]. f_equal.
    unfold select_events. rewrite Hev, List.filter_app.
    rewrite filter_none by (intros r Hr; apply Holdsel; exact Hr).
    unfold selected at 1. cbn [List.filter app row_id].
    replace (auto_increment db >? after) with true
      by (symmetry; apply Z.gtb_lt; exact Hnew).
    simpl. destruct wm; reflexivity.
  - set (dbr := Rollback {| begun := db; current := db1 |}).
    destruct (getNextEvents_healthy schema after lag dbr Hh1)
      as (db2 & Hget & _).
    rewrite Hget, Hla. cbn [fst]. f_equal.
    unfold select_events.
    rewrite filter_none by (intros r Hr; apply Holdsel; exact Hr).
    reflexivity.
Qed.

Lemma max_id_snoc rows r :
  Forall (fun x => row_id x < row_id r) rows ->
  max_id (rows ++ [r]) = Some (row_id r).
Proof.
  induction rows as [|x rows IH]; simpl; [reflexivity|].
  intros Hall. apply Forall_cons in Hall as [Hx Hall].
  rewrite (IH Hall). f_equal. lia.
Qed.

(** X15: on a healthy store whose ids in use are below a positive id
    counter, when the inserter has taken an event on a transaction, the id
    that [getLatestID] returns once the transaction has committed is the id
    given to that event, and it is greater than the id that [getLatestID]
    returned before; when the transaction is rolled back instead,
    [getLatestID] returns what it returned before. *)
Theorem insert_then_getLatestID db :
  healthy db -> accepted -> fresh_ids db -> 0 < auto_increment db ->
  exists tx,
    in_tx (makeDefaultInserter schema foreignID typ metadata) (BeginTx db) =
      (None, tx) /\
    fst (getLatestID schema (Commit tx)) = (auto_increment db, None) /\
    fst (fst (getLatestID schema db)) < auto_increment db /\
    fst (getLatestID schema (Rollback tx)) = fst (getLatestID schema db).
Proof.
  intros Hh Hacc Hfresh Hpos.
  destruct (insert_healthy db Hh Hacc) as (db1 & Hins & Hh1 & Hev & _).
  exists {| begun := db; current := db1 |}. split; [|split; [|split]].
  - unfold in_tx, BeginTx. cbn [current begun]. rewrite Hins. reflexivity.
  - unfold Commit, getLatestID, bind, ret. cbn [current].
    rewrite QueryRow_max_id_eq, (healthy_hd db1 Hh1), Hev.
    rewrite (max_id_snoc (events db) (new_row db)); [reflexivity|].
    exact Hfresh.
  - unfold getLatestID, bind, ret.
    rewrite QueryRow_max_id_eq, (healthy_hd db Hh).
    pose proof (max_id_spec (events db)) as Hmax.
    destruct (max_id (events db)) as [m|]; simpl; [|exact Hpos].
    destruct Hmax as [Hin _]. apply in_map_iff in Hin as (r & <- & Hr).
    unfold fresh_ids in Hfresh. rewrite Forall_forall in Hfresh.
    apply Hfresh, list_elem_of_In. exact Hr.
  - unfold getLatestID, bind, ret.
    rewrite !QueryRow_max_id_eq, (healthy_hd db Hh).
    replace (hd None (faults (Rollback {| begun := db; current := db1 |})))
      with (@None error) by (symmetry; apply (healthy_hd db1 Hh1)).
    reflexivity.
Qed.

(** X16: whatever its arguments and whatever the driver does, the inserter
    keeps the primary key of the events table and the ids in use below the
    id counter; it keeps the rows the table held, adding one at most,
    and leaves the cursors table and the clock alone. *)
Theorem makeDefaultInserter_keeps_table db :
  primary_key db -> fresh_ids db ->
  let db' := snd (makeDefaultInserter schema foreignID typ metadata db) in
  primary_key db' /\ fresh_ids db' /\
  (events db' = events db \/
   exists r, events db' = events db ++ [r] /\ row_id r = auto_increment db) /\
  cursors db' = cursors db /\ clock db' = clock db.
Proof.
  intros Hpk Hfresh db'.
  destruct (makeDefaultInserter_primary_key schema foreignID typ metadata db
              Hpk Hfresh) as [Hpk' Hfresh'].
  split; [exact Hpk'|]. split; [exact Hfresh'|].
  unfold db', makeDefaultInserter.
  assert (Hexec : forall md,
             let d := snd (ExecContext
                (InsertEvent foreignID (reflex.ReflexType typ) md) db) in
             (events d = events db \/
              exists r, events d = events db ++ [r] /\
                        row_id r = auto_increment db) /\
             cursors d = cursors db /\ clock d = clock db).
  { intros md. rewrite ExecContext_eq.
    destruct (hd None (faults db)); simpl; [auto|].
    split; [|auto]. right. eexists. split; reflexivity. }
  destruct (negb (String.eqb (metadataField schema) EmptyString)).
  - unfold bind, ret. specialize (Hexec (Some metadata)).
    destruct (ExecContext _ db). exact Hexec.
  - destruct (negb (is_nil metadata)); [simpl; auto|].
    unfold bind, ret. specialize (Hexec None).
    destruct (ExecContext _ db). exact Hexec.
Qed.

End Insert.

End Fetch.

End EventLog.

Lemma getNextEvents_nil_error_complete_witness :
  let out := getNextEvents plain_events 1 0 sample_db in
  List.map reflex.ID (fst (fst out)) = ["2"; "3"] /\
  length (fst (fst out)) = 2%nat.
Proof.
  intros out.
  destruct (getNextEvents_nil_error_complete plain_events 1 0 sample_db
              (fst (fst out)) (snd out)) as [Hel Hlen].
  - reflexivity.
  - split; [rewrite Hel; reflexivity | rewrite Hlen; reflexivity].
Defined.

Lemma getNextEvents_skips_nothing_witness :
  let out := getNextEvents plain_events 0 0 sample_db in
  let r := {| row_id := 2; row_foreign_id := "order-8";
              row_timestamp := 95000000000; row_type := 2;
              row_metadata := None |} in
  In (event_of (project false r)) (fst (fst out)) \/
  (length (fst (fst out)) = 1000%nat /\
   Forall (fun e => exists i, reflex.ID e = pretty i /\ i < row_id r)
     (fst (fst out))).
Proof.
  intros out r.
  apply (getNextEvents_skips_nothing plain_events 0 0 sample_db
           (fst (fst out)) (snd out) r).
  - reflexivity.
  - exact sample_db_primary_key.
  - simpl. auto.
  - reflexivity.
Defined.


Lemma getNextEvents_metadata_witness :
  Forall (fun e => reflex.MetaData e = None)
    (fst (fst (getNextEvents plain_events 0 0 sample_db))).
Proof.
  apply (getNextEvents_metadata plain_events 0 0 sample_db). reflexivity.
Defined.

Lemma getNextEvents_pages_witness :
  let later : DB Z :=
    {| events := events sample_db; auto_increment := 9;
       cursors := [ {| cur_id := "c"; cur_cursor := 3; cur_timestamp := 0 |} ];
       clock := 200000000000; faults := [] |} in
  exists el1 db1 el2 db3,
    getNextEvents plain_events 0 0 sample_db = (el1, None, db1) /\
    getNextEvents plain_events 3 0 later = (el2, None, db3) /\
    List.map reflex.ID (el1 ++ el2) = ["1"; "2"; "3"].
Proof.
  intros later.
  destruct (getNextEvents_pages plain_events 0 0 sample_db)
    as (el1 & db1 & Hget & Hnext).
  - exact sample_db_healthy.
  - exact sample_db_primary_key.
  - lia.
  - assert (Hel1 : List.map reflex.ID el1 = ["1"; "2"; "3"] /\
                   exists ev, last el1 = Some ev /\ reflex.ID ev = pretty 3).
    { vm_compute in Hget. injection Hget as <- _.
      split; [reflexivity|]. eexists. split; reflexivity. }
    destruct Hel1 as (_ & ev & Hlast & HID).
    destruct (Hnext ev 3 later Hlast HID) as (el2 & db3 & Hget2 & Hall).
    + apply Forall_nil_2.
    + reflexivity.
    + exists el1, db1, el2, db3. split; [exact Hget|]. split; [exact Hget2|].
      rewrite Hall. reflexivity.
Defined.

Lemma insert_then_getNextEvents_witness :
  exists tx,
    in_tx (makeDefaultInserter plain_events "order-10" (2 : eventType) None)
      (BeginTx sample_db) = (None, tx) /\
    fst (getNextEvents plain_events 3 0 (Commit tx)) =
      ([ {| reflex.ID := "4"; reflex.Type_ := 2; reflex.ForeignID := "order-10";
            reflex.Timestamp := 100000000000; reflex.MetaData := None |} ],
       None) /\
    fst (getNextEvents plain_events 3 0 (Rollback tx)) = ([], None).
Proof.
  destruct (insert_then_getNextEvents plain_events "order-10" (2 : eventType)
              None 3 0 sample_db) as (tx & Hins & Hget & Hback).
  - exact sample_db_healthy.
  - right. reflexivity.
  - lia.
  - intros r Hr. simpl in Hr. destruct Hr as [<-|[<-|[<-|[]]]]; simpl; lia.
  - simpl. lia.
  - exists tx. split; [exact Hins|]. split; [|exact Hback].
    rewrite Hget. reflexivity.
Defined.

Lemma sample_db_fresh_ids : fresh_ids sample_db.
Proof. unfold fresh_ids. simpl. repeat constructor. Qed.

Lemma insert_then_getLatestID_witness :
  exists tx,
    in_tx (makeDefaultInserter plain_events "order-10" (2 : eventType) None)
      (BeginTx sample_db) = (None, tx) /\
    fst (getLatestID plain_events (Commit tx)) = (4, None) /\
    fst (getLatestID plain_events sample_db) = (3, None) /\
    fst (getLatestID plain_events (Rollback tx)) = (3, None).
Proof.
  destruct (insert_then_getLatestID plain_events "order-10" (2 : eventType)
              None sample_db) as (tx & Hins & Hget & _ & Hback).
  - exact sample_db_healthy.
  - right. reflexivity.
  - exact sample_db_fresh_ids.
  - simpl. lia.
  - exists tx. split; [exact Hins|]. split; [exact Hget|].
    split; [reflexivity | rewrite Hback; reflexivity].
Defined.

Lemma makeDefaultInserter_keeps_table_witness :
  let db' := snd (makeDefaultInserter plain_events "order-10" (2 : eventType)
                    (Some [Byte.x00]) sample_db) in
  primary_key db' /\ fresh_ids db' /\
  (events db' = events sample_db \/
   exists r, events db' = events sample_db ++ [r] /\
             row_id r = auto_increment sample_db) /\
  cursors db' = cursors sample_db /\ clock db' = clock sample_db.
Proof.
  apply (makeDefaultInserter_keeps_table plain_events "order-10" (2 : eventType)
           (Some [Byte.x00]) sample_db).
  - exact sample_db_primary_key.
  - exact sample_db_fresh_ids.
Defined.

End event_facts.

(** ** More on the consumer *)

Module consumer_facts.
Import reflex consumer_proofs.

Section Consumer.

Context {S : Type}.
Implicit Types (c : consumer S) (event : Event) (w : World S).

Lemma apply_options_app (opts later : list (ConsumerOption S)) c :
  apply_options (opts ++ later) c = apply_options later (apply_options opts c).
Proof.
  revert c. induction opts as [|o opts IH]; intros c; simpl; [reflexivity|].
  apply IH.
Qed.

Lemma apply_options_keep (later : list (ConsumerOption S)) c :
  Forall (fun o => forall c', lagAlert (o c') = lagAlert c') later ->
  lagAlert (apply_options later c) = lagAlert c.
Proof.
  intros Hall. revert c. induction Hall as [|o later Ho _ IH]; intros c; simpl;
    [reflexivity|].
  rewrite IH. apply Ho.
Qed.

(** X17: the lag-alert threshold of a new consumer is thirty minutes unless
    an option sets it; the last of the options [WithConsumerLagAlert] and
    [WithoutConsumerLag] decides, the latter leaving -1, and the options on
    the activity TTL and on the alert gauge do not change it. *)
Theorem NewConsumer_lag_threshold (name0 : string) (fn0 : handler S)
    (opts later : list (ConsumerOption S)) (d : Duration) (m : metrics) :
  Forall (fun o => forall c', lagAlert (o c') = lagAlert c') later ->
  lagAlert (fst (NewConsumer name0 fn0 later m)) = 1800000000000 /\
  lagAlert (fst (NewConsumer name0 fn0
                   (opts ++ WithConsumerLagAlert d :: later) m)) = d /\
  lagAlert (fst (NewConsumer name0 fn0
                   (opts ++ WithoutConsumerLag :: later) m)) = -1 /\
  (forall (ttl : Duration) (g : Gauge) c',
      lagAlert (WithConsumerActivityTTL ttl c') = lagAlert c' /\
      lagAlert (WithoutConsumerActivityTTL c') = lagAlert c' /\
      lagAlert (WithConsumerLagAlertGauge g c') = lagAlert c').
Proof.
  intros Hlater. unfold NewConsumer, Register. cbn [fst lagAlert].
  rewrite !apply_options_app. cbn [apply_options].
  rewrite !(apply_options_keep later) by exact Hlater.
  repeat split; reflexivity.
Qed.


End Consumer.

Lemma NewConsumer_lag_threshold_witness :
  let h : handler unit := fun _ s => (Returns None, s) in
  let m0 := mkMetrics (fun _ => 0%float) (fun _ => 0) (fun _ => [])
              (fun _ => None) (fun _ => None) in
  let later := [WithConsumerActivityTTL 5; WithConsumerLagAlertGauge (customGauge "g");
                WithoutConsumerActivityTTL] in
  lagAlert (fst (NewConsumer "c" h later m0)) = 1800000000000 /\
  lagAlert (fst (NewConsumer "c" h
                   ([WithoutConsumerLag] ++ WithConsumerLagAlert 7 :: later) m0)) = 7 /\
  lagAlert (fst (NewConsumer "c" h
                   ([WithConsumerLagAlert 7] ++ WithoutConsumerLag :: later) m0)) = -1.
Proof.
  intros h m0 later.
  destruct (NewConsumer_lag_threshold "c" h [WithoutConsumerLag] later 7 m0)
    as (Hdef & Hset & _).
  { repeat constructor. }
  destruct (NewConsumer_lag_threshold "c" h [WithConsumerLagAlert 7] later 7 m0)
    as (_ & _ & Hoff & _).
  { repeat constructor. }
  split; [exact Hdef|]. split; [exact Hset | exact Hoff].
Defined.


End consumer_facts.
